(** * WinUDPShardedEcho: the per-core echo worker, its start-up and the t-digest

    A shallow embedding of [src/server/main.cpp] (the worker loop of
    [worker_thread_func] and the argument handling and endpoint construction
    of [main]) and of [src/common/tdigest.hpp] ([TDigest::add],
    [TDigest::compress] and [TDigest::percentile]).

    Unsigned machine integers ([uint64_t] counters, [DWORD] byte counts) are
    [N] with the wrap-around written out; signed ones ([int], [long]) are [Z].
    Pointers to I/O contexts are indices into a heap of contexts.  The helpers
    of [common/socket_utils.hpp] ([post_recv], [post_send], the Winsock calls)
    are the boundary to the kernel: every call is recorded, its outcome is an
    input of the model, and its effect on the kernel is modelled below. *)

From Stdlib Require Import ZArith NArith List Lia.
From Stdlib Require Import Strings.Byte Strings.Ascii Strings.String.
From Stdlib Require Import Floats.
From Stdlib Require Import Sorting.Sorted.
From stdpp Require Import base list strings.

Local Open Scope N_scope.

(** ** Data model *)

Definition SOCKET := Z.
Definition HANDLE := Z.

(** An [io_context*]: the index of the context in the worker's heap. *)
Definition ctx_ptr := nat.

Inductive io_operation_type := recv | send.

#[global] Instance io_operation_type_eq_dec : EqDecision io_operation_type.
Proof. solve_decision. Defined.

(** [struct io_context]: the fields the worker reads. *)
Record io_context := mk_io_context {
  operation : io_operation_type;
  buffer : list byte;
  remote_addr : list byte;
  remote_addr_len : Z
}.

(** [OVERLAPPED_ENTRY], with [nullptr] as [None]. *)
Record OVERLAPPED_ENTRY := mk_entry {
  lpCompletionKey : N;
  lpOverlapped : option ctx_ptr;
  dwNumberOfBytesTransferred : N
}.

(** [struct worker_context] without its [std::thread]. *)
Record worker_context := mk_worker_context {
  processor_id : N;
  socket : SOCKET;
  iocp : HANDLE;
  packets_received : N;
  packets_sent : N;
  bytes_received : N;
  bytes_sent : N
}.

(** [std::atomic<uint64_t>::fetch_add]: the new value, modulo 2^64. *)
Definition fetch_add (c d : N) : N := (c + d) mod 2 ^ 64.
Arguments fetch_add : simpl never.

(** Lines the worker writes to the console. *)
Inductive log_line :=
| affinity_failed (cpu : N)
| affinity_set (cpu : N)
| failed_initial_recv (cpu : N)
| worker_started (cpu : N) (outstanding : nat)
| no_available_send_context (cpu : N).

(** A call that crosses the boundary to [socket_utils.hpp], with its
    arguments as the worker passes them and the result it gets back.  For
    [post_send], [data] is the array [io_ctx->buffer.data()] points to and
    [dest] the storage [&io_ctx->remote_addr] points to. *)
Inductive call :=
| PostRecv (sock : SOCKET) (p : ctx_ptr) (ok : bool)
| PostSend (sock : SOCKET) (send_ctx : ctx_ptr) (data : list byte) (len : N)
           (dest : list byte) (dest_len : Z) (ok : bool)
| Log (l : log_line).

(** The bytes a posted Send carries: the first [len] bytes at [data]. *)
Definition send_payload (c : call) : list byte :=
  match c with
  | PostSend _ _ data len _ _ _ => take (N.to_nat len) data
  | _ => []
  end.

Definition is_failed_post_recv (c : call) : bool :=
  match c with PostRecv _ _ false => true | _ => false end.

(** A datagram handed to the network by an accepted Send. *)
Record datagram := mk_datagram {
  dg_socket : SOCKET;
  dg_payload : list byte;
  dg_dest : list byte;
  dg_dest_len : Z
}.

(** Everything behind the helpers: the contexts' memory, the requests the
    kernel holds, its completion queue, the datagrams sent, and the record of
    the calls made. *)
Record env := mk_env {
  heap : list io_context;
  outstanding_recv : list ctx_ptr;
  outstanding_send : list ctx_ptr;
  completion_queue : list OVERLAPPED_ENTRY;
  wire : list datagram;
  calls : list call
}.

(** The worker thread's own variables. *)
Record worker := mk_worker {
  ctx : worker_context;
  available_send_contexts : list ctx_ptr
}.

(** ** The helpers of socket_utils.hpp *)

Definition record_call (c : call) (e : env) : env :=
  mk_env (heap e) (outstanding_recv e) (outstanding_send e)
         (completion_queue e) (wire e) (calls e ++ [c]).

Definition set_operation (o : io_operation_type) (c : io_context) : io_context :=
  mk_io_context o (buffer c) (remote_addr c) (remote_addr_len c).

(** Modelled from the spec: [post_recv] of common/socket_utils.hpp is not
    among the sources.  A Recv Context is "kernel-owned (a request is
    outstanding)" once posted, and its operation tag is Recv.  [ok] is the
    outcome of the underlying receive call; a failed post leaves no request
    behind. *)
Definition post_recv (ok : bool) (sock : SOCKET) (p : ctx_ptr) (e : env)
  : bool * env :=
  let e' := record_call (PostRecv sock p ok) e in
  if ok then
    (true, mk_env (alter (set_operation recv) p (heap e'))
                  (outstanding_recv e' ++ [p]) (outstanding_send e')
                  (completion_queue e') (wire e') (calls e'))
  else (false, e').

(** Modelled from the spec: [post_send] of common/socket_utils.hpp is not
    among the sources.  The Send Context carries the operation tag Send, the
    payload and the peer address "supplied on Send"; an accepted Send is one
    outstanding request and one datagram on the wire. *)
Definition post_send (ok : bool) (sock : SOCKET) (send_ctx : ctx_ptr)
    (data : list byte) (len : N) (dest : list byte) (dest_len : Z) (e : env)
  : bool * env :=
  let c := PostSend sock send_ctx data len dest dest_len ok in
  let e' := record_call c e in
  if ok then
    let fill (s : io_context) :=
      mk_io_context send
        (send_payload c ++ drop (N.to_nat len) (buffer s)) dest dest_len in
    (true, mk_env (alter fill send_ctx (heap e'))
                  (outstanding_recv e') (outstanding_send e' ++ [send_ctx])
                  (completion_queue e')
                  (wire e' ++ [mk_datagram sock (send_payload c) dest dest_len])
                  (calls e'))
  else (false, e').

(** ** worker_thread_func: one iteration of the loop over a batch *)

(** [std::vector]: [back], [pop_back] and [push_back] work at the end. *)
Definition back {A} (v : list A) : option A := last v.
Definition pop_back {A} (v : list A) : list A := removelast v.
Definition push_back {A} (v : list A) (x : A) : list A := v ++ [x].

Definition count_received (bytes_transferred : N) (c : worker_context)
  : worker_context :=
  mk_worker_context (processor_id c) (socket c) (iocp c)
    (fetch_add (packets_received c) 1) (packets_sent c)
    (fetch_add (bytes_received c) bytes_transferred) (bytes_sent c).

Definition count_sent (bytes_transferred : N) (c : worker_context)
  : worker_context :=
  mk_worker_context (processor_id c) (socket c) (iocp c)
    (packets_received c) (fetch_add (packets_sent c) 1)
    (bytes_received c) (fetch_add (bytes_sent c) bytes_transferred).

(** The body of [for (ULONG ei = 0; ei < num_removed; ++ei)] (main.cpp
    97-137) for one entry.  [send_ok] and [recv_ok] are the outcomes of the
    [post_send] and [post_recv] calls, should the body make them.  [None]: the
    entry's pointer is not a live context and the cast's result is
    dereferenced all the same. *)
Definition process_entry (send_ok recv_ok : bool) (entry : OVERLAPPED_ENTRY)
    (w : worker) (e : env) : option (worker * env) :=
  let bytes_transferred := dwNumberOfBytesTransferred entry in
  match lpOverlapped entry with
  | None => Some (w, e)
  | Some io_ctx =>
    match heap e !! io_ctx with
    | None => None
    | Some c =>
      match operation c with
      | recv =>
        let ctx1 := count_received bytes_transferred (ctx w) in
        if 0 <? bytes_transferred then
          match back (available_send_contexts w) with
          | Some send_ctx =>
            let avail := pop_back (available_send_contexts w) in
            let '(sent, e1) :=
              post_send send_ok (socket ctx1) send_ctx (buffer c)
                        bytes_transferred (remote_addr c) (remote_addr_len c) e in
            let w2 :=
              if sent then mk_worker (count_sent bytes_transferred ctx1) avail
              else mk_worker ctx1 (push_back avail send_ctx) in
            let '(_, e2) := post_recv recv_ok (socket ctx1) io_ctx e1 in
            Some (w2, e2)
          | None =>
            let e1 :=
              record_call (Log (no_available_send_context (processor_id ctx1))) e in
            let '(_, e2) := post_recv recv_ok (socket ctx1) io_ctx e1 in
            Some (mk_worker ctx1 (available_send_contexts w), e2)
          end
        else
          let '(_, e1) := post_recv recv_ok (socket ctx1) io_ctx e in
          Some (mk_worker ctx1 (available_send_contexts w), e1)
      | send =>
        Some (mk_worker (ctx w) (push_back (available_send_contexts w) io_ctx), e)
      end
    end
  end.

(** ** worker_thread_func: start-up (main.cpp 38-69) *)

(** [recv_contexts] are allocated first, [send_contexts] next: with
    [OUTSTANDING_OPS] contexts each they sit at these heap indices. *)
Definition recv_contexts (OUTSTANDING_OPS : nat) : list ctx_ptr :=
  seq 0 OUTSTANDING_OPS.
Definition send_contexts (OUTSTANDING_OPS : nat) : list ctx_ptr :=
  seq OUTSTANDING_OPS OUTSTANDING_OPS.

(** [for (auto& recv_ctx : recv_contexts) if (!post_recv(...)) log]; the
    outcomes of the posts are [oks], in order ([true] once [oks] runs out). *)
Fixpoint post_initial_recvs (c : worker_context) (oks : list bool)
    (ps : list ctx_ptr) (e : env) : env :=
  match ps with
  | [] => e
  | p :: ps' =>
    let '(posted, e1) := post_recv (hd true oks) (socket c) p e in
    let e2 :=
      if posted then e1
      else record_call (Log (failed_initial_recv (processor_id c))) e1 in
    post_initial_recvs c (tl oks) ps' e2
  end.

(** The worker, its kernel and the batch being worked on: [entries] holds
    [entries[ei..num_removed)], the completions dequeued and not yet
    handled. *)
Record state := mk_state {
  wk : worker;
  world : env;
  entries : list OVERLAPPED_ENTRY
}.

(** The state when the worker enters its loop.  [fresh] is a
    value-initialised [io_context] (its layout is in socket_utils.hpp). *)
Definition worker_start (OUTSTANDING_OPS : nat) (fresh : io_context)
    (c : worker_context) (affinity_ok : bool) (oks : list bool) : state :=
  let e0 := mk_env (replicate (OUTSTANDING_OPS + OUTSTANDING_OPS) fresh)
                   [] [] [] [] [] in
  let e1 :=
    record_call (Log (if affinity_ok then affinity_set (processor_id c)
                      else affinity_failed (processor_id c))) e0 in
  let available := send_contexts OUTSTANDING_OPS in
  let e2 := post_initial_recvs c oks (recv_contexts OUTSTANDING_OPS) e1 in
  let e3 :=
    record_call (Log (worker_started (processor_id c) OUTSTANDING_OPS)) e2 in
  mk_state (mk_worker c available) e3 [].

(** ** The loop and the kernel, one step at a time *)

(** [static_cast<ULONG>(OUTSTANDING_OPS * 2)] *)
Definition max_entries (OUTSTANDING_OPS : nat) : N :=
  N.of_nat (OUTSTANDING_OPS * 2) mod 2 ^ 32.

(** What can happen next.  The first three are the kernel's moves, modelled
    from the spec: the completion queue "receives one notification per
    finished I/O".  The last two are the worker's: a batched dequeue (main.cpp
    73-94) and one iteration over the batch (main.cpp 96-138). *)
Inductive event :=
| ev_datagram (i : nat) (payload from : list byte) (from_len : Z)
| ev_send_complete (i : nat) (n : N)
| ev_wake
| ev_dequeue
| ev_process (send_ok recv_ok : bool).

Definition enqueue (en : OVERLAPPED_ENTRY) (e : env) : env :=
  mk_env (heap e) (outstanding_recv e) (outstanding_send e)
         (completion_queue e ++ [en]) (wire e) (calls e).

(** Modelled from the spec: the kernel completes the [i]-th outstanding Recv
    with an arriving datagram: it fills the context's buffer (as far as it
    reaches) and peer address and queues the completion. *)
Definition deliver_datagram (i : nat) (payload from : list byte) (from_len : Z)
    (e : env) : env :=
  match outstanding_recv e !! i with
  | None => e
  | Some p =>
    match heap e !! p with
    | None => e
    | Some c =>
      let n := Nat.min (length payload) (length (buffer c)) in
      let c' := mk_io_context (operation c)
                  (take n payload ++ drop n (buffer c)) from from_len in
      enqueue (mk_entry 0 (Some p) (N.of_nat n))
        (mk_env (<[p := c']> (heap e)) (delete i (outstanding_recv e))
                (outstanding_send e) (completion_queue e) (wire e) (calls e))
    end
  end.

(** Modelled from the spec: the kernel finishes the [i]-th outstanding Send
    and queues its completion, reporting [n] bytes. *)
Definition complete_send (i : nat) (n : N) (e : env) : env :=
  match outstanding_send e !! i with
  | None => e
  | Some p =>
    enqueue (mk_entry 0 (Some p) n)
      (mk_env (heap e) (outstanding_recv e) (delete i (outstanding_send e))
              (completion_queue e) (wire e) (calls e))
  end.

(** [GetQueuedCompletionStatusEx]: up to [max_entries] completions leave the
    queue, oldest first.  With nothing queued the call times out and the loop
    starts over. *)
Definition dequeue (OUTSTANDING_OPS : nat) (s : state) : state :=
  match entries s with
  | _ :: _ => s
  | [] =>
    let e := world s in
    let n := N.to_nat (max_entries OUTSTANDING_OPS) in
    mk_state (wk s)
      (mk_env (heap e) (outstanding_recv e) (outstanding_send e)
              (drop n (completion_queue e)) (wire e) (calls e))
      (take n (completion_queue e))
  end.

Definition step (OUTSTANDING_OPS : nat) (ev : event) (s : state)
  : option state :=
  match ev with
  | ev_datagram i payload from from_len =>
    Some (mk_state (wk s) (deliver_datagram i payload from from_len (world s))
                   (entries s))
  | ev_send_complete i n =>
    Some (mk_state (wk s) (complete_send i n (world s)) (entries s))
  | ev_wake =>
    Some (mk_state (wk s) (enqueue (mk_entry 0 None 0) (world s)) (entries s))
  | ev_dequeue => Some (dequeue OUTSTANDING_OPS s)
  | ev_process send_ok recv_ok =>
    match entries s with
    | [] => Some s
    | entry :: rest =>
      match process_entry send_ok recv_ok entry (wk s) (world s) with
      | None => None
      | Some (w', e') => Some (mk_state w' e' rest)
      end
    end
  end.

Fixpoint run (OUTSTANDING_OPS : nat) (tr : list event) (s : state)
  : option state :=
  match tr with
  | [] => Some s
  | ev :: tr' =>
    match step OUTSTANDING_OPS ev s with
    | None => None
    | Some s' => run OUTSTANDING_OPS tr' s'
    end
  end.

(** ** Where a context is *)

Definition pointers (es : list OVERLAPPED_ENTRY) : list ctx_ptr :=
  omap lpOverlapped es.

(** Kernel-owned: a request is outstanding, or its completion is queued and
    not yet delivered. *)
Definition kernel_owned (s : state) : list ctx_ptr :=
  outstanding_recv (world s) ++ outstanding_send (world s)
    ++ pointers (completion_queue (world s)).

(** Application free: on the Send free-list. *)
Definition app_free (s : state) : list ctx_ptr :=
  available_send_contexts (wk s).

(** Application executing: completion delivered, not yet handled. *)
Definition app_executing (s : state) : list ctx_ptr :=
  pointers (entries s).

Definition is_recv_ctx (OUTSTANDING_OPS : nat) (p : ctx_ptr) : Prop :=
  p ∈ recv_contexts OUTSTANDING_OPS.
Definition is_send_ctx (OUTSTANDING_OPS : nat) (p : ctx_ptr) : Prop :=
  p ∈ send_contexts OUTSTANDING_OPS.

#[global] Instance is_recv_ctx_dec n p : Decision (is_recv_ctx n p).
Proof. unfold is_recv_ctx. apply _. Defined.
#[global] Instance is_send_ctx_dec n p : Decision (is_send_ctx n p).
Proof. unfold is_send_ctx. apply _. Defined.

Definition count_where (P : ctx_ptr -> Prop) `{!forall p, Decision (P p)}
    (l : list ctx_ptr) : nat :=
  length (filter P l).

(** How often [p] occurs in [l]. *)
Definition occurrences (p : ctx_ptr) (l : list ctx_ptr) : nat :=
  count_where (fun q => q = p) l.

(** The Recv Contexts the application holds: those of its pool without a
    request in the kernel. *)
Definition recv_in_app (OUTSTANDING_OPS : nat) (s : state) : list ctx_ptr :=
  filter (fun p => p ∉ kernel_owned s) (recv_contexts OUTSTANDING_OPS).

(** How many [post_recv] calls have failed so far. *)
Definition failed_posts (cs : list call) : nat :=
  length (filter (fun c => is_failed_post_recv c = true) cs).
Definition failed_recv_posts (s : state) : nat :=
  failed_posts (calls (world s)).

(** What a step adds to the receive side: one datagram and its bytes when the
    step handles a Recv completion. *)
Definition received_by (ev : event) (s : state) : N * N :=
  match ev, entries s with
  | ev_process _ _, entry :: _ =>
    match lpOverlapped entry with
    | Some p =>
      match heap (world s) !! p with
      | Some c =>
        match operation c with
        | recv => (1, dwNumberOfBytesTransferred entry)
        | send => (0, 0)
        end
      | None => (0, 0)
      end
    | None => (0, 0)
    end
  | _, _ => (0, 0)
  end.

(** Datagrams and bytes received along a run, counted without bound. *)
Fixpoint received_along (OUTSTANDING_OPS : nat) (tr : list event) (s : state)
  : N * N :=
  match tr with
  | [] => (0, 0)
  | ev :: tr' =>
    match step OUTSTANDING_OPS ev s with
    | None => (0, 0)
    | Some s' =>
      let '(packets, bytes) := received_by ev s in
      let '(packets', bytes') := received_along OUTSTANDING_OPS tr' s' in
      (packets + packets', bytes + bytes')
    end
  end.

(** ** The invariant of the worker loop *)

(** The contexts' memory has its size; a context the kernel holds or whose
    completion is being handled carries the tag of its pool; the free-list
    holds Send Contexts only; and the kernel, the batch, the free-list and
    the Recv Contexts whose post failed ([idle]) share out the contexts, each
    context in one place. *)
Record invariant (OUTSTANDING_OPS : nat) (s : state) : Prop := mk_invariant {
  inv_heap : length (heap (world s)) = (OUTSTANDING_OPS + OUTSTANDING_OPS)%nat;
  inv_tags : forall p c,
    p ∈ kernel_owned s ++ app_executing s ->
    heap (world s) !! p = Some c ->
    operation c = if decide (p < OUTSTANDING_OPS)%nat then recv else send;
  inv_free : forall p, p ∈ app_free s -> (OUTSTANDING_OPS <= p)%nat;
  inv_places : exists idle,
    (forall p, p ∈ idle -> (p < OUTSTANDING_OPS)%nat)
    /\ length idle = failed_recv_posts s
    /\ kernel_owned s ++ app_executing s ++ app_free s ++ idle
        ≡ₚ seq 0 (OUTSTANDING_OPS + OUTSTANDING_OPS)
}.

(** ** main: the C library calls it makes on its arguments *)

Local Open Scope Z_scope.

(** [long] and [int] are both 32 bits wide on the platform of this server. *)
Definition LONG_MAX : Z := 2 ^ 31 - 1.
Definition LONG_MIN : Z := - 2 ^ 31.

Definition isspace (a : ascii) : bool :=
  let n := nat_of_ascii a in
  (Nat.eqb n 32 || (Nat.leb 9 n && Nat.leb n 13))%bool.

Definition digit_value (a : ascii) : option Z :=
  let n := nat_of_ascii a in
  if (Nat.leb 48 n && Nat.leb n 57)%bool then Some (Z.of_nat (n - 48)) else None.

Fixpoint skip_spaces (s : string) : string :=
  match s with
  | String a s' => if isspace a then skip_spaces s' else s
  | EmptyString => s
  end.

(** The value of the longest prefix of decimal digits, after [acc]. *)
Fixpoint digits (acc : Z) (s : string) : Z :=
  match s with
  | String a s' =>
    match digit_value a with
    | Some d => digits (10 * acc + d) s'
    | None => acc
    end
  | EmptyString => acc
  end.

(** [strtol(s, nullptr, 10)]: white space, an optional sign, digits; 0 when
    no digits follow; out-of-range values saturate. *)
Definition strtol (s : string) : Z :=
  let v :=
    match skip_spaces s with
    | String "-"%char s' => - digits 0 s'
    | String "+"%char s' => digits 0 s'
    | s' => digits 0 s'
    end in
  Z.max LONG_MIN (Z.min LONG_MAX v).

(** [atoi]: as [strtol] where [int] is as wide as [long]. *)
Definition atoi (s : string) : Z := strtol s.

Definition string_empty (s : string) : bool :=
  match s with EmptyString => true | _ => false end.

(** ** main: worker count and buffer size (main.cpp 189-203) *)

(** [static_cast<uint32_t>] of an [int]. *)
Definition to_uint32 (v : Z) : Z := v mod 2 ^ 32.

Definition num_workers (cores_str : string) (num_processors : Z) : Z :=
  if string_empty cores_str then num_processors
  else
    let requested := atoi cores_str in
    if (0 <? requested) && (to_uint32 requested <=? num_processors)
    then to_uint32 requested
    else num_processors.

Definition default_recvbuf : Z := 4194304.

Definition parse_recvbuf (recvbuf_str : string) : Z :=
  if string_empty recvbuf_str then default_recvbuf
  else
    let v := strtol recvbuf_str in
    if 0 <? v then v else default_recvbuf.

(** ** main: one endpoint per worker index (main.cpp 222-300) *)

Inductive address_family := AF_INET | AF_INET6.
Inductive socket_option := IPV6_V6ONLY | SO_RCVBUF | SO_SNDBUF.

#[global] Instance address_family_eq_dec : EqDecision address_family.
Proof. solve_decision. Defined.

(** What the system answers while one endpoint is built: [None] stands for
    [INVALID_SOCKET] and for a null [HANDLE]; [v6only_initially] is the
    IPv6-only flag of a newly created IPv6 socket. *)
Record endpoint_env := mk_endpoint_env {
  socket_v6 : option SOCKET;
  socket_v4 : option SOCKET;
  v6only_initially : bool;
  clear_v6only_ok : bool;
  affinity_ok : bool;
  rcvbuf_ok : bool;
  sndbuf_ok : bool;
  bind_ok : bool;
  iocp_created : option HANDLE
}.

Inductive syscall :=
| CreateUdpSocket (af : address_family) (result : option SOCKET)
| SetSockOpt (s : SOCKET) (opt : socket_option) (value : Z) (ok : bool)
| SetSocketCpuAffinity (s : SOCKET) (cpu : Z) (ok : bool)
| Bind (s : SOCKET) (af : address_family) (port : Z) (ok : bool)
| CreateIocpAndAssociate (s : SOCKET) (result : option HANDLE)
| CloseSocket (s : SOCKET).

(** A worker as [main] records it, with what the kernel knows of its socket. *)
Record endpoint := mk_endpoint {
  ep_ctx : worker_context;
  ep_family : address_family;
  ep_v6only : bool;
  ep_using_ipv6 : bool
}.

(** The tail of the loop body, from [ctx->socket = sock] on (main.cpp
    247-299). *)
Definition finish_endpoint (i : Z) (port recvbuf : Z) (k : endpoint_env)
    (sock : SOCKET) (af : address_family) (v6only using_ipv6 : bool)
  : list syscall * option endpoint :=
  let setup :=
    [ SetSocketCpuAffinity sock (i mod 2 ^ 16) (affinity_ok k);
      SetSockOpt sock SO_RCVBUF recvbuf (rcvbuf_ok k);
      SetSockOpt sock SO_SNDBUF recvbuf (sndbuf_ok k);
      Bind sock (if using_ipv6 then AF_INET6 else AF_INET)
           (port mod 2 ^ 16) (bind_ok k) ] in
  if negb (bind_ok k) then (setup ++ [CloseSocket sock], None)
  else
    match iocp_created k with
    | None =>
      (setup ++ [CreateIocpAndAssociate sock None; CloseSocket sock], None)
    | Some h =>
      (setup ++ [CreateIocpAndAssociate sock (Some h)],
       Some (mk_endpoint
               (mk_worker_context (Z.to_N i) sock h 0%N 0%N 0%N 0%N)
               af v6only using_ipv6))
    end.

(** One iteration of [for (uint32_t i = 0; i < num_workers; ++i)]: the
    calls made and the worker pushed onto [workers], if any. *)
Definition create_endpoint (i : Z) (port recvbuf : Z) (k : endpoint_env)
  : list syscall * option endpoint :=
  match socket_v6 k with
  | None =>
    match socket_v4 k with
    | None =>
      ([CreateUdpSocket AF_INET6 None; CreateUdpSocket AF_INET None], None)
    | Some sock =>
      let '(cs, r) := finish_endpoint i port recvbuf k sock AF_INET false false in
      ([CreateUdpSocket AF_INET6 None; CreateUdpSocket AF_INET (Some sock)] ++ cs, r)
    end
  | Some sock =>
    let v6only := if clear_v6only_ok k then false else v6only_initially k in
    let using_ipv6 := if clear_v6only_ok k then true else true in
    let '(cs, r) := finish_endpoint i port recvbuf k sock AF_INET6 v6only using_ipv6 in
    ([CreateUdpSocket AF_INET6 (Some sock);
      SetSockOpt sock IPV6_V6ONLY 0 (clear_v6only_ok k)] ++ cs, r)
  end.

(** The whole loop: what each index in [0, num_workers) gives. *)
Definition create_endpoints (n : Z) (port recvbuf : Z)
    (envs : Z -> endpoint_env) : list (list syscall * option endpoint) :=
  map (fun i : nat => create_endpoint (Z.of_nat i) port recvbuf (envs (Z.of_nat i)))
      (seq 0 (Z.to_nat n)).

Inductive main_result :=
| Exit (code : Z)
| Serving (port : Z) (workers : list endpoint).

(** [main] up to the start of the worker threads.  [help], [port_str],
    [cores_str] and [recvbuf_str] are what the argument parser hands over
    (common/arg_parser.hpp). *)
Definition main (help : bool) (port_str cores_str recvbuf_str : string)
    (num_processors : Z) (winsock_ok : bool) (envs : Z -> endpoint_env)
  : main_result * list syscall :=
  if help then (Exit 0, [])
  else if string_empty port_str then (Exit 1, [])
  else
    let port := atoi port_str in
    if (port <=? 0) || (65535 <? port) then (Exit 1, [])
    else
      let workers_wanted := num_workers cores_str num_processors in
      let recvbuf := parse_recvbuf recvbuf_str in
      if negb winsock_ok then (Exit 1, [])
      else
        let built := create_endpoints workers_wanted port recvbuf envs in
        let workers := omap snd built in
        let made := concat (map fst built) in
        match workers with
        | [] => (Exit 1, made)
        | _ => (Serving port workers, made)
        end.

(** The buffer-size requests among the calls. *)
Definition buffer_requests (cs : list syscall) : list (socket_option * Z) :=
  omap (fun c =>
          match c with
          | SetSockOpt _ SO_RCVBUF v _ => Some (SO_RCVBUF, v)
          | SetSockOpt _ SO_SNDBUF v _ => Some (SO_SNDBUF, v)
          | _ => None
          end) cs.

Definition is_create_v6 (c : syscall) : bool :=
  match c with CreateUdpSocket AF_INET6 _ => true | _ => false end.

(** ** tdigest.hpp *)

Module TDigest.

Local Open Scope float_scope.

Record Centroid := mk_centroid { mean : float; weight : float }.

Record t := mk {
  compression_ : float;
  buffer_ : list float;
  centroids_ : list Centroid;
  total_weight_ : float
}.

(** A [double] result, or the [std::invalid_argument] thrown. *)
Inductive outcome (A : Type) :=
| Value (a : A)
| invalid_argument (what : string).
Arguments Value {A} a.
Arguments invalid_argument {A} what.

(** [explicit TDigest(double compression)] *)
Definition make (compression : float) : outcome t :=
  if negb (0 <? compression) then invalid_argument "compression must be > 0"
  else Value (mk compression [] [] 0).

Definition add (x : float) (d : t) : t :=
  mk (compression_ d) (buffer_ d ++ [x]) (centroids_ d) (total_weight_ d + 1).

(** [std::sort] with [a.first < b.first], as an insertion sort.  The order
    [std::sort] leaves among items with equal values, and what it does with
    NaN values, are not fixed by the language: the theorems on [compress],
    [merge] and [percentile] use this function as a rearrangement of its
    input and do not rest on the order it produces. *)
Fixpoint insert_by_value (p : float * float) (l : list (float * float))
  : list (float * float) :=
  match l with
  | [] => [p]
  | q :: l' => if fst q <? fst p then q :: insert_by_value p l'
               else p :: q :: l'
  end.

Definition sort_by_value (l : list (float * float)) : list (float * float) :=
  fold_right insert_by_value [] l.

(** The (value, weight) view [percentile] walks: the centroids, then the
    buffered points with weight 1, sorted when there are buffered points. *)
Definition merged_view (d : t) : list (float * float) :=
  let merged :=
    map (fun c => (mean c, weight c)) (centroids_ d)
      ++ map (fun v => (v, 1)) (buffer_ d) in
  match buffer_ d with
  | [] => merged
  | _ => sort_by_value merged
  end.

(** The [for] loop of [percentile] (tdigest.hpp 134-142): the value returned
    from inside the loop, if any. *)
Fixpoint walk (target cumulative : float) (merged : list (float * float))
  : option float :=
  match merged with
  | [] => None
  | (v, w) :: rest =>
    if target <=? cumulative + w then Some v
    else walk target (cumulative + w) rest
  end.

Definition percentile (q : float) (d : t) : outcome float :=
  if negb ((0 <=? q) && (q <=? 1)) then invalid_argument "q must be in [0,1]"
  else if total_weight_ d <=? 0 then Value nan
  else
    let merged := merged_view d in
    let target := q * total_weight_ d in
    match merged with
    | [] => Value nan
    | _ =>
      match walk target 0 merged with
      | Some v => Value v
      | None => Value (default nan (fst <$> last merged))
      end
    end.

(** [build_from] (tdigest.hpp 189-210), after the first item. *)
Fixpoint build_loop (k_limit current_mean current_weight : float)
    (rest : list (float * float)) : list Centroid :=
  match rest with
  | [] => [mk_centroid current_mean current_weight]
  | (v, w) :: rest' =>
    let bound := if 1 <? k_limit then k_limit else 1 in
    if current_weight + w <=? bound then
      build_loop k_limit
        ((current_mean * current_weight + v * w) / (current_weight + w))
        (current_weight + w) rest'
    else
      mk_centroid current_mean current_weight :: build_loop k_limit v w rest'
  end.

Definition build_from (compression : float) (merged : list (float * float))
  : list Centroid :=
  match merged with
  | [] => []
  | (v, w) :: rest =>
    let total := fold_left (fun sum p => sum + snd p) merged 0 in
    build_loop (4 * total / compression) v w rest
  end.

Definition compress (d : t) : t :=
  match buffer_ d, centroids_ d with
  | [], [] => d
  | _, _ =>
    let merged :=
      map (fun v => (v, 1)) (buffer_ d)
        ++ map (fun c => (mean c, weight c)) (centroids_ d) in
    mk (compression_ d) []
       (build_from (compression_ d) (sort_by_value merged))
       (total_weight_ d)
  end.

(** The position of the bucket [walk] stops at. *)
Fixpoint walk_index (target cumulative : float) (merged : list (float * float))
  : option nat :=
  match merged with
  | [] => None
  | (v, w) :: rest =>
    if target <=? cumulative + w then Some 0%nat
    else S <$> walk_index target (cumulative + w) rest
  end.

(** The cumulative weight before bucket [i], summed as the loop sums it. *)
Definition cumulative_before (i : nat) (merged : list (float * float)) : float :=
  fold_left (fun c p => c + snd p) (take i merged) 0.

End TDigest.

(** ** Sample values *)

Definition hello : list byte := [x68; x65; x6c; x6c; x6f].
Definition peer : list byte := [x17; x00; x23; x28].
Definition fresh_context : io_context := mk_io_context recv (repeat x00 8) [] 0.
Definition cpu0 : worker_context := mk_worker_context 0 7 9 0 0 0 0.

(** A Recv Context holding "hello" from [peer], a Send Context, and the
    completion entries for the first with 5 and with 0 bytes. *)
Definition sample_env : env :=
  mk_env [mk_io_context recv (hello ++ repeat x00 3) peer 4; fresh_context]
         [] [] [] [] [].
Definition sample_entry : OVERLAPPED_ENTRY := mk_entry 0 (Some 0%nat) 5.
Definition empty_entry : OVERLAPPED_ENTRY := mk_entry 0 (Some 0%nat) 0.

(** One echoed one-byte datagram, from arrival to the return of the Send
    Context, for a worker with a single context of each kind. *)
Definition echo_cycle : list event :=
  [ev_datagram 0 [x61] peer 4; ev_dequeue; ev_process true true;
   ev_send_complete 0 1; ev_dequeue; ev_process true true].

Definition echo_cycles (n : nat) : list event := concat (replicate n echo_cycle).

(** 2^64 - 1 echoed datagrams, then an empty one. *)
Definition empty_datagram : list event :=
  [ev_datagram 0 [] peer 4; ev_dequeue; ev_process true true].
Definition wrapping_run : list event :=
  echo_cycles (N.to_nat (2 ^ 64 - 1)) ++ empty_datagram.

(** The worker of [echo_cycle] between two datagrams, having received and
    sent [k] of them. *)
Definition idle_after (k : N) (s : state) : Prop :=
  packets_received (ctx (wk s)) = k
  /\ packets_sent (ctx (wk s)) = k
  /\ available_send_contexts (wk s) = [1%nat]
  /\ entries s = []
  /\ outstanding_recv (world s) = [0%nat]
  /\ outstanding_send (world s) = []
  /\ completion_queue (world s) = []
  /\ exists c0 c1,
       heap (world s) = [c0; c1] /\ operation c0 = recv /\ buffer c0 <> [].

(** A system on which IPv6 sockets can be created and bound, but the
    IPv6-only flag (set on a new socket) cannot be cleared. *)
Definition v6only_stuck : endpoint_env :=
  mk_endpoint_env (Some 100%Z) (Some 101%Z) true false true true true true
                  (Some 200%Z).

(** [TDigest d(100); d.add(10); d.add(20);] *)
Definition two_points : TDigest.t :=
  TDigest.add 20 (TDigest.add 10 (TDigest.mk 100 [] [] 0)).

(** [TDigest d(4); d.add(10); d.add(20); d.add(30); d.compress();]: one
    centroid of mean 20 and weight 3. *)
Definition one_centroid : TDigest.t :=
  TDigest.compress
    (TDigest.add 30 (TDigest.add 20 (TDigest.add 10 (TDigest.mk 4 [] [] 0)))).

(** ** What the worker has done, read off the wire and the call record *)

(** [dg] went out on [sock] and is the echo of a datagram that arrived
    during [seen]: it carries a non-empty prefix of that datagram's payload
    (all of it when it fitted the buffer) and is addressed to its sender. *)
Definition echo_of (seen : list event) (sock : SOCKET) (dg : datagram) : Prop :=
  dg_socket dg = sock
  /\ dg_payload dg <> []
  /\ exists i payload,
       ev_datagram i payload (dg_dest dg) (dg_dest_len dg) ∈ seen
       /\ dg_payload dg `prefix_of` payload.

(** The payload bytes handed to the network. *)
Definition wire_bytes (w : list datagram) : N :=
  fold_right (fun dg acc => (N.of_nat (length (dg_payload dg)) + acc)%N) 0%N w.

Definition is_post_recv (c : call) : bool :=
  match c with PostRecv _ _ _ => true | _ => false end.

(** How many [post_recv] calls were made. *)
Definition recv_posts (cs : list call) : nat :=
  length (filter (fun c => is_post_recv c = true) cs).

(** The socket a call is made on. *)
Definition call_socket (c : call) : option SOCKET :=
  match c with
  | PostRecv sock _ _ => Some sock
  | PostSend sock _ _ _ _ _ _ => Some sock
  | Log _ => None
  end.

(** Each of the completions [es] for a Recv Context still finds in [h] what
    the kernel put there: the first bytes_transferred bytes of the buffer are
    the start of a datagram that arrived during [seen], and the peer address
    is that datagram's sender. *)
Definition pending (OUTSTANDING_OPS : nat) (seen : list event)
    (h : list io_context) (es : list OVERLAPPED_ENTRY) : Prop :=
  forall entry p c,
    entry ∈ es ->
    lpOverlapped entry = Some p ->
    (p < OUTSTANDING_OPS)%nat ->
    h !! p = Some c ->
    (N.to_nat (dwNumberOfBytesTransferred entry) <= length (buffer c))%nat
    /\ exists i payload,
         ev_datagram i payload (remote_addr c) (remote_addr_len c) ∈ seen
         /\ take (N.to_nat (dwNumberOfBytesTransferred entry)) (buffer c)
            `prefix_of` payload.

(** What holds of a worker on socket [sock] after the events [seen], besides
    [invariant]: requests sit with contexts of the right pool; everything on
    the wire is an echo; a Recv completion waiting to be handled still has
    the datagram the kernel put into its context; the send counters count the
    wire; every Recv completion was answered by a [post_recv]; and every call
    was made on [sock]. *)
Record provenance (OUTSTANDING_OPS : nat) (sock : SOCKET) (seen : list event)
    (s : state) : Prop := mk_provenance {
  pv_socket : socket (ctx (wk s)) = sock;
  pv_recv_side : forall p,
    p ∈ outstanding_recv (world s) -> (p < OUTSTANDING_OPS)%nat;
  pv_send_side : forall p,
    p ∈ outstanding_send (world s) -> (OUTSTANDING_OPS <= p)%nat;
  pv_wire : Forall (echo_of seen sock) (wire (world s));
  pv_pending :
    pending OUTSTANDING_OPS seen (heap (world s))
            (completion_queue (world s) ++ entries s);
  pv_counts :
    packets_sent (ctx (wk s))
    = (N.of_nat (length (wire (world s))) mod 2 ^ 64)%N
    /\ bytes_sent (ctx (wk s)) = (wire_bytes (wire (world s)) mod 2 ^ 64)%N;
  pv_reposts :
    (N.of_nat (recv_posts (calls (world s))) mod 2 ^ 64)%N
    = ((N.of_nat OUTSTANDING_OPS + packets_received (ctx (wk s))) mod 2 ^ 64)%N;
  pv_calls :
    Forall (fun c => call_socket c = None \/ call_socket c = Some sock)
           (calls (world s))
}.

(** ** What main has done, read off its calls *)

(** The sockets the calls created, and the sockets they closed. *)
Definition created_sockets (cs : list syscall) : list SOCKET :=
  omap (fun c => match c with CreateUdpSocket _ (Some s) => Some s | _ => None end)
       cs.
Definition closed_sockets (cs : list syscall) : list SOCKET :=
  omap (fun c => match c with CloseSocket s => Some s | _ => None end) cs.

(** The sockets the workers hold when [main] goes on to serve. *)
Definition held_sockets (r : main_result) : list SOCKET :=
  match r with
  | Serving _ workers => map (fun ep => socket (ep_ctx ep)) workers
  | Exit _ => []
  end.

(** [k] with other outcomes for the three calls whose failure is only
    warned about. *)
Definition with_warnings (a r s : bool) (k : endpoint_env) : endpoint_env :=
  mk_endpoint_env (socket_v6 k) (socket_v4 k) (v6only_initially k)
                  (clear_v6only_ok k) a r s (bind_ok k) (iocp_created k).

(** ** tdigest.hpp: the remaining members *)

Module TDigestRest.

Import TDigest.
Local Open Scope float_scope.

(** [void merge(const TDigest& other)] *)
Definition merge (other d : t) : t :=
  let merged :=
    map (fun c => (mean c, weight c)) (centroids_ d)
      ++ map (fun v => (v, 1)) (buffer_ d)
      ++ map (fun c => (mean c, weight c)) (centroids_ other)
      ++ map (fun v => (v, 1)) (buffer_ other) in
  mk (compression_ d) []
     (build_from (compression_ d) (sort_by_value merged))
     (total_weight_ d + total_weight_ other).

(** [void reset()] *)
Definition reset (d : t) : t := mk (compression_ d) [] [] 0.

(** [double total_weight() const] *)
Definition total_weight (d : t) : float := total_weight_ d.

(** The buckets a digest holds: centroids and buffered points. *)
Definition buckets (d : t) : nat :=
  (length (centroids_ d) + length (buffer_ d))%nat.

(** The values a digest holds: centroid means and buffered points. *)
Definition stored_values (d : t) : list float :=
  map mean (centroids_ d) ++ buffer_ d.

(** [q >= 0.0 && q <= 1.0] *)
Definition in_unit_interval (q : float) : bool := (0 <=? q) && (q <=? 1).

(** [double k_limit = 4.0 * total / compression_] over the sorted items. *)
Definition k_limit (compression : float) (merged : list (float * float))
  : float :=
  4 * fold_left (fun sum p => sum + snd p) merged 0 / compression.

(** The buffered points as (value, weight) items, sorted. *)
Definition sorted_points (d : t) : list (float * float) :=
  sort_by_value (map (fun v => (v, 1)) (buffer_ d)).

End TDigestRest.

(** ** main: the final statistics (main.cpp 343-350) *)

(** [total_recv += ctx->packets_received.load()] and so on, in [uint64_t]. *)
Definition total_statistics (workers : list worker_context) : N * N * N * N :=
  fold_left
    (fun '(total_recv, total_sent, total_bytes_recv, total_bytes_sent) c =>
       (fetch_add total_recv (packets_received c),
        fetch_add total_sent (packets_sent c),
        fetch_add total_bytes_recv (bytes_received c),
        fetch_add total_bytes_sent (bytes_sent c)))
    workers (0%N, 0%N, 0%N, 0%N).

(** The worker of [echo_cycle] between two datagrams with its byte counters:
    each datagram of the cycle carries one byte. *)
Definition idle_with_bytes (k : N) (s : state) : Prop :=
  idle_after k s
  /\ bytes_received (ctx (wk s)) = k
  /\ bytes_sent (ctx (wk s)) = k.

(** 2^64 - 1 echoed one-byte datagrams: all four counters stand at
    2^64 - 1. *)
Definition full_counters : list event := echo_cycles (N.to_nat (2 ^ 64 - 1)).

(** A one-byte datagram, respectively an empty one, arrives and its
    completion is dequeued. *)
Definition one_byte_arrives : list event :=
  [ev_datagram 0 [x61] peer 4; ev_dequeue].
Definition empty_arrives : list event :=
  [ev_datagram 0 [] peer 4; ev_dequeue].

(** 2^64 - 1 echoed one-byte datagrams, then one more whose echo the kernel
    refuses. *)
Definition byte_wrapping_run : list event :=
  full_counters ++ one_byte_arrives ++ [ev_process false true].

(** What the initial post on Recv Context [p] leaves in the record: the
    call with its outcome, the [p]-th of [oks], and the line logged when it
    fails (main.cpp 61-65). *)
Definition initial_post (c : worker_context) (oks : list bool) (p : ctx_ptr)
  : list call :=
  PostRecv (socket c) p (nth p oks true)
  :: (if nth p oks true then []
      else [Log (failed_initial_recv (processor_id c))]).

(** The exact sum of a counter over the workers. *)
Definition sum_of (f : worker_context -> N) (workers : list worker_context)
  : N :=
  fold_right (fun c acc => (f c + acc)%N) 0%N workers.

(** * Theorems *)

Local Open Scope N_scope.

(** ** One loop iteration *)

Lemma pop_then_push {A} (v : list A) (x : A) :
  back v = Some x -> push_back (pop_back v) x = v.
Proof.
  unfold back, pop_back, push_back.
  destruct v as [|y v' _] using rev_ind; [discriminate|].
  rewrite last_snoc, removelast_last. congruence.
Qed.

Lemma post_recv_calls ok sock p e :
  calls (snd (post_recv ok sock p e)) = calls e ++ [PostRecv sock p ok].
Proof. unfold post_recv. destruct ok; reflexivity. Qed.

Lemma post_recv_wire ok sock p e : wire (snd (post_recv ok sock p e)) = wire e.
Proof. unfold post_recv. destruct ok; reflexivity. Qed.

Lemma post_recv_outstanding_send ok sock p e :
  outstanding_send (snd (post_recv ok sock p e)) = outstanding_send e.
Proof. unfold post_recv. destruct ok; reflexivity. Qed.

(** The shape of the echo branch, for use below. *)
Lemma process_entry_echo send_ok recv_ok entry w e io_ctx c send_ctx :
  lpOverlapped entry = Some io_ctx ->
  heap e !! io_ctx = Some c ->
  operation c = recv ->
  0 < dwNumberOfBytesTransferred entry ->
  back (available_send_contexts w) = Some send_ctx ->
  let n := dwNumberOfBytesTransferred entry in
  let ctx1 := count_received n (ctx w) in
  let r := post_send send_ok (socket (ctx w)) send_ctx (buffer c) n
                     (remote_addr c) (remote_addr_len c) e in
  process_entry send_ok recv_ok entry w e =
    Some (if fst r
          then mk_worker (count_sent n ctx1) (pop_back (available_send_contexts w))
          else mk_worker ctx1 (push_back (pop_back (available_send_contexts w)) send_ctx),
          snd (post_recv recv_ok (socket (ctx w)) io_ctx (snd r))).
Proof.
  intros Hp Hc Hop Hn Hb. unfold process_entry. rewrite Hp, Hc, Hop, Hb.
  apply N.ltb_lt in Hn. rewrite Hn. simpl.
  destruct (post_send _ _ _ _ _ _ _ e) as [sent e1]. simpl.
  destruct (post_recv _ _ _ e1) as [x e2]. reflexivity.
Qed.

(** C1. A Recv completion with bytes_transferred > 0 that is echoed (a Send
    Context is available): the worker makes exactly one post_send call, on
    its own socket, with the buffer of the completed Recv Context and
    bytes_transferred as length, so that the Send carries the first
    bytes_transferred bytes of that buffer, and with the peer address and
    address length stored in that context; an accepted Send puts exactly that
    datagram on the wire. *)
Theorem echo_send_matches_recv send_ok recv_ok entry w e io_ctx c send_ctx :
  lpOverlapped entry = Some io_ctx ->
  heap e !! io_ctx = Some c ->
  operation c = recv ->
  0 < dwNumberOfBytesTransferred entry ->
  back (available_send_contexts w) = Some send_ctx ->
  let n := dwNumberOfBytesTransferred entry in
  let posted := PostSend (socket (ctx w)) send_ctx (buffer c) n
                         (remote_addr c) (remote_addr_len c) send_ok in
  exists w' e',
    process_entry send_ok recv_ok entry w e = Some (w', e')
    /\ calls e' = calls e ++ [posted; PostRecv (socket (ctx w)) io_ctx recv_ok]
    /\ send_payload posted = take (N.to_nat n) (buffer c)
    /\ (send_ok = true ->
        wire e' = wire e ++ [mk_datagram (socket (ctx w))
                               (take (N.to_nat n) (buffer c))
                               (remote_addr c) (remote_addr_len c)]).
Proof.
  intros Hp Hc Hop Hn Hb n posted.
  rewrite (process_entry_echo send_ok recv_ok entry w e io_ctx c send_ctx)
    by assumption.
  eexists _, _. split; [reflexivity|].
  rewrite post_recv_calls, post_recv_wire.
  unfold post_send. destruct send_ok; simpl; rewrite <- app_assoc;
    (split; [reflexivity|]); (split; [reflexivity|]);
    intros Hok; first [reflexivity | discriminate Hok].
Qed.

Lemma echo_send_matches_recv_witness :
  exists w' e',
    process_entry true true sample_entry
      (mk_worker cpu0 [1%nat]) sample_env = Some (w', e')
    /\ calls e' = [PostSend 7%Z 1%nat (hello ++ repeat x00 3) 5 peer 4%Z true;
                   PostRecv 7%Z 0%nat true]
    /\ send_payload (PostSend 7%Z 1%nat (hello ++ repeat x00 3) 5 peer 4%Z true)
       = hello
    /\ (true = true -> wire e' = [mk_datagram 7%Z hello peer 4%Z]).
Proof.
  apply (echo_send_matches_recv true true sample_entry
           (mk_worker cpu0 [1%nat]) sample_env 0%nat
           (mk_io_context recv (hello ++ repeat x00 3) peer 4%Z) 1%nat);
    reflexivity.
Defined.

(** C2, with the counter's width.  A Recv completion with
    bytes_transferred = 0: packets_received becomes its old value plus one
    modulo 2^64 (plus one as long as the sum fits 64 bits, 0 from 2^64 - 1),
    bytes_received has 0 added, the free-list, packets_sent and bytes_sent
    stay as they are, no Send is posted (nothing reaches the wire or the
    kernel's Sends), and the only call made re-posts the Recv Context on the
    worker's socket. *)
Theorem zero_length_datagram send_ok recv_ok entry w e io_ctx c :
  lpOverlapped entry = Some io_ctx ->
  heap e !! io_ctx = Some c ->
  operation c = recv ->
  dwNumberOfBytesTransferred entry = 0 ->
  exists w' e',
    process_entry send_ok recv_ok entry w e = Some (w', e')
    /\ packets_received (ctx w') = (packets_received (ctx w) + 1) mod 2 ^ 64
    /\ (packets_received (ctx w) + 1 < 2 ^ 64 ->
        packets_received (ctx w') = packets_received (ctx w) + 1)
    /\ (packets_received (ctx w) = 2 ^ 64 - 1 ->
        packets_received (ctx w') = 0)
    /\ bytes_received (ctx w') = (bytes_received (ctx w) + 0) mod 2 ^ 64
    /\ (bytes_received (ctx w) < 2 ^ 64 ->
        bytes_received (ctx w') = bytes_received (ctx w))
    /\ available_send_contexts w' = available_send_contexts w
    /\ packets_sent (ctx w') = packets_sent (ctx w)
    /\ bytes_sent (ctx w') = bytes_sent (ctx w)
    /\ calls e' = calls e ++ [PostRecv (socket (ctx w)) io_ctx recv_ok]
    /\ wire e' = wire e
    /\ outstanding_send e' = outstanding_send e.
Proof.
  intros Hp Hc Hop Hn. unfold process_entry. rewrite Hp, Hc, Hop, Hn. simpl.
  assert (bytes_received (ctx w) < 2 ^ 64 ->
          fetch_add (bytes_received (ctx w)) 0 = bytes_received (ctx w)) as Hz.
  { intros Hlt. unfold fetch_add. rewrite N.add_0_r. by apply N.mod_small. }
  assert (packets_received (ctx w) + 1 < 2 ^ 64 ->
          fetch_add (packets_received (ctx w)) 1 = packets_received (ctx w) + 1)
    as Hs by (intros Hlt; unfold fetch_add; by apply N.mod_small).
  assert (packets_received (ctx w) = 2 ^ 64 - 1 ->
          fetch_add (packets_received (ctx w)) 1 = 0)
    as Hwrap by (intros ->; reflexivity).
  pose proof (post_recv_calls recv_ok (socket (ctx w)) io_ctx e) as H1.
  pose proof (post_recv_wire recv_ok (socket (ctx w)) io_ctx e) as H2.
  pose proof (post_recv_outstanding_send recv_ok (socket (ctx w)) io_ctx e) as H3.
  destruct (post_recv _ _ _ e) as [x e1]. simpl in *.
  eexists _, _. split; [reflexivity|]. simpl.
  change (fetch_add (packets_received (ctx w)) 1)
    with ((packets_received (ctx w) + 1) mod 2 ^ 64) in *.
  change (fetch_add (bytes_received (ctx w)) 0)
    with ((bytes_received (ctx w) + 0) mod 2 ^ 64) in *.
  tauto.
Qed.

Lemma zero_length_datagram_witness :
  exists w' e',
    process_entry true true empty_entry (mk_worker cpu0 [1%nat]) sample_env
      = Some (w', e')
    /\ packets_received (ctx w') = 1
    /\ bytes_received (ctx w') = 0
    /\ available_send_contexts w' = [1%nat]
    /\ packets_sent (ctx w') = 0
    /\ bytes_sent (ctx w') = 0
    /\ calls e' = [PostRecv 7%Z 0%nat true]
    /\ wire e' = []
    /\ outstanding_send e' = [].
Proof.
  destruct (zero_length_datagram true true empty_entry (mk_worker cpu0 [1%nat])
              sample_env 0%nat
              (mk_io_context recv (hello ++ repeat x00 3) peer 4%Z))
    as (w' & e' & Hrun & _ & Hp & _ & _ & Hb & Hrest); try reflexivity.
  exists w', e'. split; [exact Hrun|].
  split; [apply Hp; reflexivity|]. split; [apply Hb; reflexivity|].
  exact Hrest.
Defined.

(** C3. A Recv completion with bytes_transferred > 0 handled while the
    free-list is empty: the echo is dropped (the calls made are the log line
    and the re-post, no post_send; nothing reaches the wire; packets_sent and
    bytes_sent stay as they are) and the Recv Context is re-posted on the
    worker's socket. *)
Theorem empty_free_list_drops_echo send_ok recv_ok entry w e io_ctx c :
  lpOverlapped entry = Some io_ctx ->
  heap e !! io_ctx = Some c ->
  operation c = recv ->
  0 < dwNumberOfBytesTransferred entry ->
  available_send_contexts w = [] ->
  exists w' e',
    process_entry send_ok recv_ok entry w e = Some (w', e')
    /\ calls e' = calls e
         ++ [Log (no_available_send_context (processor_id (ctx w)));
             PostRecv (socket (ctx w)) io_ctx recv_ok]
    /\ wire e' = wire e
    /\ outstanding_send e' = outstanding_send e
    /\ packets_sent (ctx w') = packets_sent (ctx w)
    /\ bytes_sent (ctx w') = bytes_sent (ctx w)
    /\ available_send_contexts w' = [].
Proof.
  intros Hp Hc Hop Hn Hav. unfold process_entry. rewrite Hp, Hc, Hop, Hav.
  apply N.ltb_lt in Hn. rewrite Hn. simpl.
  set (e1 := record_call _ e).
  pose proof (post_recv_calls recv_ok (socket (ctx w)) io_ctx e1) as H1.
  pose proof (post_recv_wire recv_ok (socket (ctx w)) io_ctx e1) as H2.
  pose proof (post_recv_outstanding_send recv_ok (socket (ctx w)) io_ctx e1) as H3.
  destruct (post_recv _ _ _ e1) as [x e2]. simpl in *.
  eexists _, _. split; [reflexivity|]. simpl.
  rewrite H1, <- app_assoc. tauto.
Qed.

Lemma empty_free_list_drops_echo_witness :
  exists w' e',
    process_entry true true sample_entry (mk_worker cpu0 []) sample_env
      = Some (w', e')
    /\ calls e' = [Log (no_available_send_context 0); PostRecv 7%Z 0%nat true]
    /\ wire e' = []
    /\ outstanding_send e' = []
    /\ packets_sent (ctx w') = 0
    /\ bytes_sent (ctx w') = 0
    /\ available_send_contexts w' = [].
Proof.
  apply (empty_free_list_drops_echo true true sample_entry (mk_worker cpu0 [])
           sample_env 0%nat (mk_io_context recv (hello ++ repeat x00 3) peer 4%Z));
    reflexivity.
Defined.

(** C4, with the counters' width.  An echo attempt (Recv completion,
    bytes_transferred > 0, a Send Context popped): when posting the Send
    fails the free-list is what it was before the pop, packets_sent and
    bytes_sent are unchanged, and neither the wire nor the kernel's Sends
    have gained anything; when it succeeds packets_sent becomes its old
    value plus one and bytes_sent its old value plus bytes_transferred, both
    modulo 2^64 (the plain sums as long as they fit 64 bits), and the popped
    context has left the free-list. *)
Theorem echo_attempt_outcome send_ok recv_ok entry w e io_ctx c send_ctx :
  lpOverlapped entry = Some io_ctx ->
  heap e !! io_ctx = Some c ->
  operation c = recv ->
  0 < dwNumberOfBytesTransferred entry ->
  back (available_send_contexts w) = Some send_ctx ->
  exists w' e',
    process_entry send_ok recv_ok entry w e = Some (w', e')
    /\ (send_ok = false ->
        available_send_contexts w' = available_send_contexts w
        /\ packets_sent (ctx w') = packets_sent (ctx w)
        /\ bytes_sent (ctx w') = bytes_sent (ctx w)
        /\ wire e' = wire e
        /\ outstanding_send e' = outstanding_send e)
    /\ (send_ok = true ->
        available_send_contexts w' = pop_back (available_send_contexts w)
        /\ packets_sent (ctx w') = (packets_sent (ctx w) + 1) mod 2 ^ 64
        /\ bytes_sent (ctx w')
           = (bytes_sent (ctx w) + dwNumberOfBytesTransferred entry)
               mod 2 ^ 64
        /\ (packets_sent (ctx w) + 1 < 2 ^ 64 ->
            packets_sent (ctx w') = packets_sent (ctx w) + 1)
        /\ (bytes_sent (ctx w) + dwNumberOfBytesTransferred entry < 2 ^ 64 ->
            bytes_sent (ctx w')
            = bytes_sent (ctx w) + dwNumberOfBytesTransferred entry)
        /\ outstanding_send e' = outstanding_send e ++ [send_ctx]).
Proof.
  intros Hp Hc Hop Hn Hb.
  rewrite (process_entry_echo send_ok recv_ok entry w e io_ctx c send_ctx)
    by assumption.
  eexists _, _. split; [reflexivity|].
  rewrite post_recv_wire, post_recv_outstanding_send.
  unfold post_send. destruct send_ok; simpl; split; try discriminate; intros _.
  - unfold fetch_add. split_and!; try reflexivity;
      intros Hlt; by apply N.mod_small.
  - rewrite (pop_then_push _ _ Hb). tauto.
Qed.

Lemma echo_attempt_outcome_witness :
  (exists w' e',
     process_entry false true sample_entry (mk_worker cpu0 [1%nat]) sample_env
       = Some (w', e')
     /\ available_send_contexts w' = [1%nat]
     /\ packets_sent (ctx w') = 0
     /\ bytes_sent (ctx w') = 0
     /\ wire e' = []
     /\ outstanding_send e' = [])
  /\ (exists w' e',
        process_entry true true sample_entry (mk_worker cpu0 [1%nat]) sample_env
          = Some (w', e')
        /\ available_send_contexts w' = []
        /\ packets_sent (ctx w') = 1
        /\ bytes_sent (ctx w') = 5
        /\ outstanding_send e' = [1%nat]).
Proof.
  split.
  - destruct (echo_attempt_outcome false true sample_entry
                (mk_worker cpu0 [1%nat]) sample_env 0%nat
                (mk_io_context recv (hello ++ repeat x00 3) peer 4%Z) 1%nat)
      as (w' & e' & Hrun & Hfail & _); try reflexivity.
    exists w', e'. split; [exact Hrun|]. apply Hfail. reflexivity.
  - destruct (echo_attempt_outcome true true sample_entry
                (mk_worker cpu0 [1%nat]) sample_env 0%nat
                (mk_io_context recv (hello ++ repeat x00 3) peer 4%Z) 1%nat)
      as (w' & e' & Hrun & _ & Hok); try reflexivity.
    destruct (Hok eq_refl) as (Hav & _ & _ & Hp & Hb & Hos).
    exists w', e'. split; [exact Hrun|]. split; [exact Hav|].
    split; [apply Hp; reflexivity|]. split; [apply Hb; reflexivity|].
    exact Hos.
Defined.

(** X12. A datagram that fits the buffer, from arrival to echo: the kernel
    fills an outstanding Recv Context, the worker dequeues the completion
    and handles it, and the datagram that goes out on the worker's socket
    has the payload that came in and is addressed to where it came from. *)
Lemma echo_round_trip OUTSTANDING_OPS s i p c payload from from_len recv_ok
    send_ctx :
  entries s = [] ->
  completion_queue (world s) = [] ->
  outstanding_recv (world s) !! i = Some p ->
  heap (world s) !! p = Some c ->
  operation c = recv ->
  payload <> [] ->
  (length payload <= length (buffer c))%nat ->
  back (available_send_contexts (wk s)) = Some send_ctx ->
  0 < max_entries OUTSTANDING_OPS ->
  exists s',
    run OUTSTANDING_OPS
        [ev_datagram i payload from from_len; ev_dequeue; ev_process true recv_ok]
        s = Some s'
    /\ wire (world s')
       = wire (world s)
           ++ [mk_datagram (socket (ctx (wk s))) payload from from_len].
Proof.
  intros Hen Hq Hi Hc Hop Hpay Hfit Hb Hmax.
  destruct s as [w e es]. simpl in *. subst es.
  unfold deliver_datagram, dequeue. rewrite Hi, Hc. simpl. rewrite Hq. simpl.
  destruct (N.to_nat (max_entries OUTSTANDING_OPS)) as [|n] eqn:Hn; [lia|].
  simpl.
  set (k := Nat.min (length payload) (length (buffer c))).
  assert (k = length payload) as Hk by (unfold k; lia).
  assert (0 < N.of_nat k) as Hpos.
  { rewrite Hk. destruct payload; [contradiction|simpl; lia]. }
  set (c' := mk_io_context (operation c) (take k payload ++ drop k (buffer c))
                           from from_len).
  set (e1 := mk_env (<[p:=c']> (heap e)) _ _ _ _ _).
  assert (heap e1 !! p = Some c') as Hc'.
  { unfold e1. simpl. apply list_lookup_insert_eq.
    apply lookup_lt_is_Some. eauto. }
  rewrite (process_entry_echo true recv_ok (mk_entry 0 (Some p) (N.of_nat k))
             w e1 p c' send_ctx eq_refl Hc' Hop Hpos Hb).
  eexists. split; [reflexivity|]. simpl. rewrite post_recv_wire. simpl.
  rewrite Nat2N.id, Hk, take_app_length', firstn_all by (by rewrite firstn_all).
  reflexivity.
Qed.

(** ** The contexts across the loop *)

Section Accounting.

Variable OUTSTANDING_OPS : nat.
Local Open Scope nat_scope.

Lemma lookup_alter_inv {A} (f : A -> A) q (h : list A) x c' :
  alter f q h !! x = Some c' ->
  (x = q /\ exists c, h !! q = Some c /\ c' = f c)
  \/ (x <> q /\ h !! x = Some c').
Proof.
  destruct (decide (q = x)) as [->|Hne].
  - rewrite list_lookup_alter_eq. destruct (h !! x) as [c|]; simpl; [|discriminate].
    intros [= <-]. left. eauto.
  - rewrite list_lookup_alter_ne by assumption. auto.
Qed.

Lemma pointers_app a b : pointers (a ++ b) = pointers a ++ pointers b.
Proof. apply omap_app. Qed.

Lemma back_Some {A} (v : list A) x : back v = Some x -> v = pop_back v ++ [x].
Proof. intros H. symmetry. apply (pop_then_push v x H). Qed.

Lemma failed_posts_snoc cs c :
  failed_posts (cs ++ [c])
  = failed_posts cs + (if is_failed_post_recv c then 1 else 0).
Proof.
  unfold failed_posts. rewrite filter_app, length_app. f_equal.
  rewrite filter_cons, filter_nil.
  destruct (is_failed_post_recv c); case_decide; simpl; congruence.
Qed.

Ltac unfold_places :=
  unfold kernel_owned, app_executing, app_free, failed_recv_posts, enqueue in *;
  simpl in *.

Ltac elem_norm H :=
  repeat first [ rewrite elem_of_app in H | rewrite elem_of_cons in H
               | rewrite elem_of_nil in H ].

Ltac elem_goal :=
  repeat first [ rewrite elem_of_app | rewrite elem_of_cons
               | rewrite elem_of_nil ].

Ltac elem_tac H := elem_norm H; elem_goal; intuition (subst; eauto).

Lemma invariant_deliver i payload from from_len s :
  invariant OUTSTANDING_OPS s ->
  invariant OUTSTANDING_OPS
    (mk_state (wk s) (deliver_datagram i payload from from_len (world s))
              (entries s)).
Proof.
  destruct s as [w e es]. intros [Hh Ht Hf (idle & Hi & Hl & Hp)].
  unfold deliver_datagram; simpl in *.
  destruct (outstanding_recv e !! i) as [p|] eqn:Ei;
    [|by (split; eauto)].
  destruct (heap e !! p) as [c|] eqn:Ec; [|by (split; eauto)].
  pose proof (delete_Permutation _ _ _ Ei) as Hd.
  split; unfold_places.
  - by rewrite length_insert.
  - intros x cx Hx. rewrite pointers_app in Hx. simpl in Hx.
    assert (x ∈ (outstanding_recv e ++ outstanding_send e
                   ++ pointers (completion_queue e)) ++ pointers es) as Hx'.
    { rewrite Hd. elem_tac Hx. }
    destruct (decide (x = p)) as [->|Hne].
    + rewrite list_lookup_insert_eq by (by apply lookup_lt_is_Some; eauto).
      intros [= <-]. simpl. eauto.
    + rewrite list_lookup_insert_ne by congruence. eauto.
  - assumption.
  - exists idle. split; [assumption|]. split; [assumption|].
    rewrite <- Hp, pointers_app. simpl. rewrite Hd at 2. solve_Permutation.
Qed.

Lemma invariant_complete_send i n s :
  invariant OUTSTANDING_OPS s ->
  invariant OUTSTANDING_OPS
    (mk_state (wk s) (complete_send i n (world s)) (entries s)).
Proof.
  destruct s as [w e es]. intros [Hh Ht Hf (idle & Hi & Hl & Hp)].
  unfold complete_send; simpl in *.
  destruct (outstanding_send e !! i) as [p|] eqn:Ei;
    [|by (split; eauto)].
  pose proof (delete_Permutation _ _ _ Ei) as Hd.
  split; unfold_places.
  - assumption.
  - intros x cx Hx. rewrite pointers_app in Hx. simpl in Hx.
    apply Ht. rewrite Hd. elem_tac Hx.
  - assumption.
  - exists idle. split; [assumption|]. split; [assumption|].
    rewrite <- Hp, pointers_app. simpl. rewrite Hd at 2. solve_Permutation.
Qed.

Lemma invariant_wake s :
  invariant OUTSTANDING_OPS s ->
  invariant OUTSTANDING_OPS
    (mk_state (wk s) (enqueue (mk_entry 0 None 0) (world s)) (entries s)).
Proof.
  destruct s as [w e es]. intros [Hh Ht Hf Hp].
  split; unfold_places; rewrite ?pointers_app; simpl; rewrite ?app_nil_r;
    assumption.
Qed.

Lemma invariant_dequeue s :
  invariant OUTSTANDING_OPS s -> invariant OUTSTANDING_OPS (dequeue OUTSTANDING_OPS s).
Proof.
  destruct s as [w e es]. intros Hinv. unfold dequeue; simpl.
  destruct es as [|en es]; [|assumption].
  destruct Hinv as [Hh Ht Hf (idle & Hi & Hl & Hp)].
  set (n := N.to_nat (max_entries OUTSTANDING_OPS)).
  assert (pointers (completion_queue e)
          = pointers (take n (completion_queue e))
              ++ pointers (drop n (completion_queue e))) as Hq.
  { rewrite <- pointers_app. by rewrite take_drop. }
  split; unfold_places.
  - assumption.
  - intros x cx Hx. apply Ht. rewrite Hq. elem_tac Hx.
  - assumption.
  - exists idle. split; [assumption|]. split; [assumption|].
    rewrite <- Hp, Hq. solve_Permutation.
Qed.

Lemma invariant_ctx c c' avail e es :
  invariant OUTSTANDING_OPS (mk_state (mk_worker c avail) e es) ->
  invariant OUTSTANDING_OPS (mk_state (mk_worker c' avail) e es).
Proof. intros [Hh Ht Hf Hp]. split; assumption. Qed.

Lemma invariant_log l w e es :
  invariant OUTSTANDING_OPS (mk_state w e es) ->
  invariant OUTSTANDING_OPS (mk_state w (record_call (Log l) e) es).
Proof.
  intros [Hh Ht Hf Hp]. split; unfold_places; try assumption.
  rewrite failed_posts_snoc. simpl. by rewrite Nat.add_0_r.
Qed.

Lemma invariant_post_send (ok : bool) sock send_ctx data len dest dest_len c c' avail e es :
  invariant OUTSTANDING_OPS (mk_state (mk_worker c avail) e es) ->
  back avail = Some send_ctx ->
  invariant OUTSTANDING_OPS
    (mk_state
       (mk_worker c' (if ok then pop_back avail
                      else push_back (pop_back avail) send_ctx))
       (snd (post_send ok sock send_ctx data len dest dest_len e)) es).
Proof.
  intros [Hh Ht Hf (idle & Hi & Hl & Hp)] Hb. unfold_places.
  pose proof (back_Some _ _ Hb) as Hav.
  assert (OUTSTANDING_OPS <= send_ctx) as Hs.
  { apply Hf. rewrite Hav. elem_goal. auto. }
  unfold post_send. destruct ok; simpl.
  - split; unfold_places.
    + by rewrite length_alter.
    + intros x cx Hx Hlook.
      apply lookup_alter_inv in Hlook as [(-> & c0 & _ & ->)|[Hne Hlook]].
      * simpl. case_decide; [lia|reflexivity].
      * apply (Ht x cx); [|assumption]. elem_tac Hx.
    + intros x Hx. apply Hf. rewrite Hav. elem_goal. auto.
    + exists idle. split; [assumption|]. split.
      * rewrite failed_posts_snoc. simpl. by rewrite Nat.add_0_r.
      * rewrite <- Hp. rewrite Hav at 2. solve_Permutation.
  - rewrite (pop_then_push _ _ Hb). split; unfold_places; try assumption.
    exists idle. split; [assumption|]. split; [|assumption].
    rewrite failed_posts_snoc. simpl. by rewrite Nat.add_0_r.
Qed.

Lemma invariant_post_recv ok sock p w e entry rest :
  invariant OUTSTANDING_OPS (mk_state w e (entry :: rest)) ->
  lpOverlapped entry = Some p ->
  p < OUTSTANDING_OPS ->
  invariant OUTSTANDING_OPS
    (mk_state w (snd (post_recv ok sock p e)) rest).
Proof.
  intros [Hh Ht Hf (idle & Hi & Hl & Hp)] Ep Hlt. unfold_places.
  rewrite Ep in *.
  unfold post_recv. destruct ok; simpl.
  - split; unfold_places.
    + by rewrite length_alter.
    + intros x cx Hx Hlook.
      apply lookup_alter_inv in Hlook as [(-> & c0 & _ & ->)|[Hne Hlook]].
      * simpl. case_decide; [reflexivity|lia].
      * apply (Ht x cx); [|assumption]. elem_tac Hx.
    + assumption.
    + exists idle. split; [assumption|]. split.
      * rewrite failed_posts_snoc. simpl. by rewrite Nat.add_0_r.
      * rewrite <- Hp. solve_Permutation.
  - split; unfold_places.
    + assumption.
    + intros x cx Hx. apply Ht. elem_tac Hx.
    + assumption.
    + exists (p :: idle). split; [|split].
      * intros x Hx. elem_norm Hx. destruct Hx as [->|Hx]; auto.
      * rewrite failed_posts_snoc. simpl. lia.
      * rewrite <- Hp. solve_Permutation.
Qed.

Lemma invariant_process send_ok recv_ok entry rest w e :
  invariant OUTSTANDING_OPS (mk_state w e (entry :: rest)) ->
  exists w' e',
    process_entry send_ok recv_ok entry w e = Some (w', e')
    /\ invariant OUTSTANDING_OPS (mk_state w' e' rest).
Proof.
  intros Hinv. pose proof Hinv as [Hh Ht Hf (idle & Hi & Hl & Hp)].
  unfold_places. unfold process_entry.
  destruct (lpOverlapped entry) as [p|] eqn:Ep.
  2: { eexists _, _. split; [reflexivity|]. split; unfold_places; eauto. }
  assert (p < OUTSTANDING_OPS + OUTSTANDING_OPS) as Hlt.
  { apply (elem_of_seq 0 _ p). rewrite <- Hp. elem_goal. auto. }
  destruct (heap e !! p) as [c|] eqn:Ec.
  2: { apply lookup_ge_None in Ec. lia. }
  assert (operation c = if decide (p < OUTSTANDING_OPS) then recv else send)
    as Hop by (apply (Ht p c); [elem_goal; auto|assumption]).
  destruct w as [cw avail]. simpl in *.
  destruct (operation c) eqn:Eop.
  - case_decide; [|discriminate].
    set (n := dwNumberOfBytesTransferred entry).
    destruct (0 <? n)%N.
    + destruct (back avail) as [send_ctx|] eqn:Eb.
      * destruct (post_send send_ok (socket cw) send_ctx (buffer c) n
                    (remote_addr c) (remote_addr_len c) e) as [sent e1] eqn:Es.
        assert (sent = send_ok) as ->
            by (unfold post_send in Es; destruct send_ok; congruence).
        simpl in *.
        destruct (post_recv recv_ok (socket cw) p e1) as [x e2] eqn:Er.
        eexists _, _. split; [reflexivity|].
        replace e2 with (snd (post_recv recv_ok (socket cw) p e1))
          by (by rewrite Er).
        apply (invariant_post_recv _ _ _ _ _ entry); [|assumption..].
        replace e1 with
          (snd (post_send send_ok (socket cw) send_ctx (buffer c) n
                  (remote_addr c) (remote_addr_len c) e)) by (by rewrite Es).
        destruct send_ok.
        -- by apply (invariant_post_send true _ _ _ _ _ _ cw).
        -- by apply (invariant_post_send false _ _ _ _ _ _ cw).
      * destruct (post_recv recv_ok (socket cw) p _) as [x e2] eqn:Er.
        eexists _, _. split; [reflexivity|].
        match type of Er with post_recv _ _ _ ?e1 = _ =>
          replace e2 with (snd (post_recv recv_ok (socket cw) p e1))
            by (by rewrite Er) end.
        apply (invariant_post_recv _ _ _ _ _ entry); [|assumption..].
        apply invariant_log. by apply (invariant_ctx cw).
    + destruct (post_recv recv_ok (socket cw) p e) as [x e2] eqn:Er.
      eexists _, _. split; [reflexivity|].
      replace e2 with (snd (post_recv recv_ok (socket cw) p e))
        by (by rewrite Er).
      apply (invariant_post_recv _ _ _ _ _ entry); [|assumption..].
      by apply (invariant_ctx cw).
  - case_decide; [discriminate|].
    eexists _, _. split; [reflexivity|]. split; unfold_places.
    + assumption.
    + intros x cx Hx. apply Ht. elem_tac Hx.
    + unfold push_back. intros x Hx. elem_norm Hx.
      destruct Hx as [Hx|[->|[]]]; [auto|lia].
    + exists idle. split; [assumption|]. split; [assumption|].
      rewrite <- Hp. unfold push_back. solve_Permutation.
Qed.

Lemma invariant_step ev s :
  invariant OUTSTANDING_OPS s ->
  exists s', step OUTSTANDING_OPS ev s = Some s' /\ invariant OUTSTANDING_OPS s'.
Proof.
  intros Hinv. destruct ev as [i payload from from_len|i n| | |send_ok recv_ok];
    simpl.
  - eexists. split; [reflexivity|]. by apply invariant_deliver.
  - eexists. split; [reflexivity|]. by apply invariant_complete_send.
  - eexists. split; [reflexivity|]. by apply invariant_wake.
  - eexists. split; [reflexivity|]. by apply invariant_dequeue.
  - destruct s as [w e es]. simpl. destruct es as [|entry rest].
    + eexists. split; [reflexivity|assumption].
    + destruct (invariant_process send_ok recv_ok entry rest w e Hinv)
        as (w' & e' & -> & Hinv').
      eexists. split; [reflexivity|assumption].
Qed.

Lemma invariant_run tr s :
  invariant OUTSTANDING_OPS s ->
  exists s', run OUTSTANDING_OPS tr s = Some s' /\ invariant OUTSTANDING_OPS s'.
Proof.
  revert s. induction tr as [|ev tr IH]; intros s Hinv; simpl.
  - eauto.
  - destruct (invariant_step ev s Hinv) as (s1 & -> & Hinv1). by apply IH.
Qed.

(** What the initial posts leave behind. *)
Lemma post_initial_recvs_spec c oks ps e :
  exists posted idle,
    ps ≡ₚ posted ++ idle
    /\ outstanding_recv (post_initial_recvs c oks ps e)
        = outstanding_recv e ++ posted
    /\ outstanding_send (post_initial_recvs c oks ps e) = outstanding_send e
    /\ completion_queue (post_initial_recvs c oks ps e) = completion_queue e
    /\ length (heap (post_initial_recvs c oks ps e)) = length (heap e)
    /\ failed_posts (calls (post_initial_recvs c oks ps e))
        = failed_posts (calls e) + length idle
    /\ (forall x cx,
          heap (post_initial_recvs c oks ps e) !! x = Some cx ->
          operation cx = recv \/ ((x ∉ posted) /\ heap e !! x = Some cx)).
Proof.
  revert oks e. induction ps as [|p ps IH]; intros oks e; simpl.
  - exists [], []. rewrite !app_nil_r. simpl. repeat split; auto.
    intros x cx Hx. right. split; [apply not_elem_of_nil|assumption].
  - unfold post_recv. destruct (hd true oks); simpl.
    + destruct (IH (tl oks)
                  (mk_env (alter (set_operation recv) p (heap e))
                          (outstanding_recv e ++ [p]) (outstanding_send e)
                          (completion_queue e) (wire e)
                          (calls e ++ [PostRecv (socket c) p true])))
        as (posted & idle & Hperm & Hr & Hs & Hq & Hlen & Hfail & Htag).
      simpl in *. exists (p :: posted), idle.
      rewrite Hr, Hs, Hq, Hlen, Hfail, length_alter, failed_posts_snoc,
        <- app_assoc. simpl.
      repeat split; auto.
      intros x cx Hx. destruct (Htag x cx Hx) as [?|[Hn Hlook]]; [by left|].
        apply lookup_alter_inv in Hlook as [(-> & c0 & _ & ->)|[Hne Hlook]];
          [by left|].
        right. split; [|assumption]. rewrite elem_of_cons. tauto.
    + destruct (IH (tl oks)
                  (record_call (Log (failed_initial_recv (processor_id c)))
                     (record_call (PostRecv (socket c) p false) e)))
        as (posted & idle & Hperm & Hr & Hs & Hq & Hlen & Hfail & Htag).
      simpl in *. exists posted, (p :: idle).
      rewrite Hr, Hs, Hq, Hlen, Hfail, !failed_posts_snoc. simpl.
      repeat split; auto.
      * rewrite Hperm. solve_Permutation.
      * lia.
Qed.

Lemma invariant_start fresh c affinity_ok oks :
  invariant OUTSTANDING_OPS
    (worker_start OUTSTANDING_OPS fresh c affinity_ok oks).
Proof.
  unfold worker_start.
  set (e1 := record_call _ (mk_env _ [] [] [] [] [])).
  destruct (post_initial_recvs_spec c oks (recv_contexts OUTSTANDING_OPS) e1)
    as (posted & idle & Hperm & Hr & Hs & Hq & Hlen & Hfail & Htag).
  assert (forall x, x ∈ posted ++ idle -> x < OUTSTANDING_OPS) as Hpool.
  { intros x Hx. rewrite <- Hperm in Hx. apply elem_of_seq in Hx. lia. }
  split; unfold_places.
  - rewrite Hlen. simpl. apply length_replicate.
  - rewrite Hr, Hs, Hq. simpl. intros x cx Hx Hlook.
    rewrite !app_nil_r in Hx.
    case_decide as Hd; [|exfalso; apply Hd, Hpool; elem_goal; auto].
    destruct (Htag x cx Hlook) as [?|[Hn _]]; [assumption|contradiction].
  - intros x Hx. apply elem_of_seq in Hx. lia.
  - exists idle. split; [|split].
    + intros x Hx. apply Hpool. elem_goal. auto.
    + rewrite failed_posts_snoc, Hfail. simpl. lia.
    + rewrite Hr, Hs, Hq. simpl. rewrite seq_app.
      unfold recv_contexts, send_contexts in *. rewrite Hperm.
      solve_Permutation.
Qed.

(** Counting contexts by place. *)

Lemma count_where_app (P : ctx_ptr -> Prop) `{!forall p, Decision (P p)} l1 l2 :
  count_where P (l1 ++ l2) = count_where P l1 + count_where P l2.
Proof. unfold count_where. by rewrite filter_app, length_app. Qed.

Lemma count_where_Permutation (P : ctx_ptr -> Prop)
    `{!forall p, Decision (P p)} l1 l2 :
  l1 ≡ₚ l2 -> count_where P l1 = count_where P l2.
Proof. intros Hperm. unfold count_where. by rewrite Hperm. Qed.

Lemma count_where_none (P : ctx_ptr -> Prop) `{!forall p, Decision (P p)} l :
  (forall x, x ∈ l -> ~ P x) -> count_where P l = 0.
Proof.
  unfold count_where. induction l as [|a l IH]; intros Hall; [reflexivity|].
  rewrite filter_cons. destruct (decide (P a)) as [Ha|Ha].
  - exfalso. apply (Hall a); [apply elem_of_cons; auto|assumption].
  - apply IH. intros x Hx. apply Hall, elem_of_cons. auto.
Qed.

Lemma count_where_all (P : ctx_ptr -> Prop) `{!forall p, Decision (P p)} l :
  (forall x, x ∈ l -> P x) -> count_where P l = length l.
Proof.
  unfold count_where. induction l as [|a l IH]; intros Hall; [reflexivity|].
  rewrite filter_cons. destruct (decide (P a)) as [Ha|Ha].
  - simpl. f_equal. apply IH. intros x Hx. apply Hall, elem_of_cons. auto.
  - exfalso. apply Ha, Hall, elem_of_cons. auto.
Qed.

Lemma occurrences_NoDup p l : NoDup l -> p ∈ l -> occurrences p l = 1.
Proof.
  unfold occurrences. induction 1 as [|a l Hn Hnd IH]; intros Hp.
  - by apply elem_of_nil in Hp.
  - change (a :: l) with ([a] ++ l). rewrite count_where_app.
    apply elem_of_cons in Hp as [->|Hp].
    + rewrite (count_where_all _ [a]), (count_where_none _ l); [reflexivity| |].
      * intros x Hx ->. contradiction.
      * intros x Hx. by apply list_elem_of_singleton in Hx.
    + rewrite (count_where_none _ [a]), IH; [reflexivity|assumption|].
      intros x Hx ->. apply list_elem_of_singleton in Hx. by subst.
Qed.

Lemma count_recv_pool :
  count_where (is_recv_ctx OUTSTANDING_OPS)
    (seq 0 (OUTSTANDING_OPS + OUTSTANDING_OPS)) = OUTSTANDING_OPS.
Proof.
  rewrite seq_app, count_where_app, count_where_all, count_where_none.
  - rewrite length_seq. lia.
  - intros x Hx Hr. unfold is_recv_ctx, recv_contexts in Hr.
    apply elem_of_seq in Hx, Hr. lia.
  - intros x Hx. exact Hx.
Qed.

Lemma count_send_pool :
  count_where (is_send_ctx OUTSTANDING_OPS)
    (seq 0 (OUTSTANDING_OPS + OUTSTANDING_OPS)) = OUTSTANDING_OPS.
Proof.
  rewrite seq_app, count_where_app, count_where_none, count_where_all.
  - rewrite length_seq. lia.
  - intros x Hx. exact Hx.
  - intros x Hx Hr. unfold is_send_ctx, send_contexts in Hr.
    apply elem_of_seq in Hx, Hr. lia.
Qed.

(** The pool members the kernel holds, counted from either side. *)
Lemma held_of_pool (K pool : list ctx_ptr) :
  NoDup K -> NoDup pool ->
  length (filter (fun p => p ∉ K) pool) + count_where (fun p => p ∈ pool) K
  = length pool.
Proof.
  intros HK Hpool.
  assert (filter (fun p => p ∈ K) pool ≡ₚ filter (fun p => p ∈ pool) K) as Hsw.
  { apply NoDup_Permutation; [by apply NoDup_filter..|].
    intros x. rewrite !list_elem_of_filter. tauto. }
  unfold count_where. rewrite <- Hsw.
  rewrite <- (filter_app_complement (fun p => p ∈ K) pool) at 3.
  rewrite length_app. lia.
Qed.

Lemma invariant_counts s :
  invariant OUTSTANDING_OPS s ->
  (forall p, p ∈ send_contexts OUTSTANDING_OPS ->
     occurrences p (kernel_owned s) + occurrences p (app_free s)
       + occurrences p (app_executing s) = 1)
  /\ count_where (is_send_ctx OUTSTANDING_OPS) (kernel_owned s)
      + count_where (is_send_ctx OUTSTANDING_OPS) (app_free s)
      + count_where (is_send_ctx OUTSTANDING_OPS) (app_executing s)
      = OUTSTANDING_OPS
  /\ count_where (is_recv_ctx OUTSTANDING_OPS) (kernel_owned s)
      + length (recv_in_app OUTSTANDING_OPS s) = OUTSTANDING_OPS
  /\ length (recv_in_app OUTSTANDING_OPS s)
      = count_where (is_recv_ctx OUTSTANDING_OPS) (app_executing s)
        + failed_recv_posts s.
Proof.
  intros [Hh Ht Hf (idle & Hi & Hl & Hp)].
  assert (NoDup (kernel_owned s ++ app_executing s ++ app_free s ++ idle))
    as Hnd by (rewrite Hp; apply NoDup_seq).
  assert (forall p, p ∈ send_contexts OUTSTANDING_OPS -> p ∉ idle) as Hsi.
  { intros p Hs Hin. apply Hi in Hin. apply elem_of_seq in Hs. lia. }
  pose proof (count_where_Permutation (is_send_ctx OUTSTANDING_OPS) _ _ Hp)
    as Hcs.
  pose proof (count_where_Permutation (is_recv_ctx OUTSTANDING_OPS) _ _ Hp)
    as Hcr.
  rewrite !count_where_app in Hcs, Hcr.
  rewrite count_send_pool in Hcs. rewrite count_recv_pool in Hcr.
  rewrite (count_where_none _ idle) in Hcs by (intros x Hx Hs; by apply (Hsi x)).
  rewrite (count_where_all _ idle) in Hcr
    by (intros x Hx; apply elem_of_seq; apply Hi in Hx; lia).
  rewrite (count_where_none _ (app_free s)) in Hcr
    by (intros x Hx Hr; apply Hf in Hx; apply elem_of_seq in Hr; lia).
  pose proof (held_of_pool (kernel_owned s) (recv_contexts OUTSTANDING_OPS))
    as Hheld.
  specialize (Hheld (proj1 (proj1 (NoDup_app _ _) Hnd)) (NoDup_seq _ _)).
  change (length (recv_in_app OUTSTANDING_OPS s)
          + count_where (is_recv_ctx OUTSTANDING_OPS) (kernel_owned s)
          = length (seq 0 OUTSTANDING_OPS)) in Hheld.
  rewrite length_seq in Hheld.
  unfold failed_recv_posts in *. rewrite <- Hl.
  split; [|split; [|split]]; try lia.
  intros p Hs.
  pose proof (occurrences_NoDup p _ Hnd) as Ho.
  unfold occurrences in *. rewrite !count_where_app in Ho.
  rewrite (count_where_none _ idle) in Ho
    by (intros x Hx Heq; apply (Hsi p); [assumption|by rewrite <- Heq]).
  rewrite <- Ho; [lia|]. rewrite Hp. apply elem_of_seq in Hs.
  apply elem_of_seq. lia.
Qed.

(** C5. From start-up on, whatever the kernel and the worker loop do and
    whichever posts fail: every Send Context occurs exactly once across the
    kernel (outstanding or completion queued), the free-list and the batch
    being handled; these three hold OUTSTANDING_OPS Send Contexts together;
    the Recv Contexts in the kernel and those the application holds make
    OUTSTANDING_OPS; and the application-held ones are those of the batch
    being handled plus one for every post_recv that has failed.  The loop
    never dereferences a dead pointer on the way. *)
Theorem contexts_accounted fresh c affinity_ok oks tr :
  exists s,
    run OUTSTANDING_OPS tr
      (worker_start OUTSTANDING_OPS fresh c affinity_ok oks) = Some s
    /\ (forall p, p ∈ send_contexts OUTSTANDING_OPS ->
          occurrences p (kernel_owned s) + occurrences p (app_free s)
            + occurrences p (app_executing s) = 1)
    /\ count_where (is_send_ctx OUTSTANDING_OPS) (kernel_owned s)
        + count_where (is_send_ctx OUTSTANDING_OPS) (app_free s)
        + count_where (is_send_ctx OUTSTANDING_OPS) (app_executing s)
        = OUTSTANDING_OPS
    /\ count_where (is_recv_ctx OUTSTANDING_OPS) (kernel_owned s)
        + length (recv_in_app OUTSTANDING_OPS s) = OUTSTANDING_OPS
    /\ length (recv_in_app OUTSTANDING_OPS s)
        = count_where (is_recv_ctx OUTSTANDING_OPS) (app_executing s)
          + failed_recv_posts s.
Proof.
  destruct (invariant_run tr _ (invariant_start fresh c affinity_ok oks))
    as (s & Hrun & Hinv).
  exists s. split; [assumption|]. by apply invariant_counts.
Qed.

End Accounting.

(** A Recv Context whose initial post fails stays with the application and
    is never posted again: with one context of each kind, no Recv request is
    outstanding after start-up and none will be. *)
Lemma failed_initial_post_parks_context :
  let s := worker_start 1 fresh_context cpu0 true [false] in
  outstanding_recv (world s) = []
  /\ recv_in_app 1 s = [0%nat]
  /\ app_executing s = []
  /\ failed_recv_posts s = 1%nat.
Proof. repeat split; reflexivity. Qed.

(** ** The counters *)

Section Counters.

Variable OUTSTANDING_OPS : nat.
Local Open Scope N_scope.

Lemma fetch_add_small c d : c + d < 2 ^ 64 -> fetch_add c d = c + d.
Proof. intros H. unfold fetch_add. by apply N.mod_small. Qed.

Lemma run_app tr1 tr2 s :
  run OUTSTANDING_OPS (tr1 ++ tr2) s
  = match run OUTSTANDING_OPS tr1 s with
    | Some s' => run OUTSTANDING_OPS tr2 s'
    | None => None
    end.
Proof.
  revert s. induction tr1 as [|ev tr1 IH]; intros s; simpl; [reflexivity|].
  destruct (step OUTSTANDING_OPS ev s); [apply IH|reflexivity].
Qed.

(** The packet counters on their own, and the byte counters on their own:
    neither needs the other not to wrap. *)
Lemma step_packets ev s s' :
  step OUTSTANDING_OPS ev s = Some s' ->
  packets_sent (ctx (wk s)) <= packets_received (ctx (wk s)) ->
  packets_received (ctx (wk s)) + fst (received_by ev s) < 2 ^ 64 ->
  packets_received (ctx (wk s'))
  = packets_received (ctx (wk s)) + fst (received_by ev s)
  /\ packets_sent (ctx (wk s')) <= packets_received (ctx (wk s')).
Proof.
  destruct s as [[c avail] e es].
  destruct ev as [i payload from from_len|i n| | |send_ok recv_ok]; simpl;
    try (intros [= <-]; simpl; lia).
  - unfold dequeue. simpl. destruct es; intros [= <-]; simpl; lia.
  - destruct es as [|entry rest]; [intros [= <-]; simpl; lia|].
    unfold process_entry. simpl.
    destruct (lpOverlapped entry) as [p|]; [|intros [= <-]; simpl; lia].
    destruct (heap e !! p) as [cp|]; [|discriminate].
    destruct (operation cp); [|intros [= <-]; simpl; lia].
    simpl. set (n := dwNumberOfBytesTransferred entry).
    intros Hstep Hp Hpw.
    assert (fetch_add (packets_received c) 1 = packets_received c + 1) as Hr1
        by (by apply fetch_add_small).
    assert (fetch_add (packets_sent c) 1 = packets_sent c + 1) as Hs1
        by (apply fetch_add_small; lia).
    destruct (0 <? n).
    + destruct (back avail) as [send_ctx|].
      * destruct (post_send _ _ _ _ _ _ _ e) as [sent e1].
        destruct (post_recv _ _ _ e1) as [x e2].
        injection Hstep as <-. destruct sent; simpl; lia.
      * destruct (post_recv _ _ _ _) as [x e2].
        injection Hstep as <-. simpl; lia.
    + destruct (post_recv _ _ _ _) as [x e2].
      injection Hstep as <-. simpl; lia.
Qed.

Lemma step_bytes ev s s' :
  step OUTSTANDING_OPS ev s = Some s' ->
  bytes_sent (ctx (wk s)) <= bytes_received (ctx (wk s)) ->
  bytes_received (ctx (wk s)) + snd (received_by ev s) < 2 ^ 64 ->
  bytes_received (ctx (wk s'))
  = bytes_received (ctx (wk s)) + snd (received_by ev s)
  /\ bytes_sent (ctx (wk s')) <= bytes_received (ctx (wk s')).
Proof.
  destruct s as [[c avail] e es].
  destruct ev as [i payload from from_len|i n| | |send_ok recv_ok]; simpl;
    try (intros [= <-]; simpl; lia).
  - unfold dequeue. simpl. destruct es; intros [= <-]; simpl; lia.
  - destruct es as [|entry rest]; [intros [= <-]; simpl; lia|].
    unfold process_entry. simpl.
    destruct (lpOverlapped entry) as [p|]; [|intros [= <-]; simpl; lia].
    destruct (heap e !! p) as [cp|]; [|discriminate].
    destruct (operation cp); [|intros [= <-]; simpl; lia].
    simpl. set (n := dwNumberOfBytesTransferred entry).
    intros Hstep Hb Hbw.
    assert (fetch_add (bytes_received c) n = bytes_received c + n) as Hr2
        by (by apply fetch_add_small).
    assert (fetch_add (bytes_sent c) n = bytes_sent c + n) as Hs2
        by (apply fetch_add_small; lia).
    destruct (0 <? n).
    + destruct (back avail) as [send_ctx|].
      * destruct (post_send _ _ _ _ _ _ _ e) as [sent e1].
        destruct (post_recv _ _ _ e1) as [x e2].
        injection Hstep as <-. destruct sent; simpl; lia.
      * destruct (post_recv _ _ _ _) as [x e2].
        injection Hstep as <-. simpl; lia.
    + destruct (post_recv _ _ _ _) as [x e2].
      injection Hstep as <-. simpl; lia.
Qed.

Lemma run_packets tr : forall s s',
  run OUTSTANDING_OPS tr s = Some s' ->
  packets_sent (ctx (wk s)) <= packets_received (ctx (wk s)) ->
  packets_received (ctx (wk s))
    + fst (received_along OUTSTANDING_OPS tr s) < 2 ^ 64 ->
  packets_received (ctx (wk s'))
  = packets_received (ctx (wk s)) + fst (received_along OUTSTANDING_OPS tr s)
  /\ packets_sent (ctx (wk s')) <= packets_received (ctx (wk s')).
Proof.
  induction tr as [|ev tr IH]; intros s s'; simpl.
  - intros [= <-]. lia.
  - destruct (step OUTSTANDING_OPS ev s) as [s1|] eqn:Es; [|discriminate].
    destruct (received_by ev s) as [p b] eqn:Er.
    destruct (received_along OUTSTANDING_OPS tr s1) as [p' b'] eqn:Ea.
    simpl. intros Hrun Hp Hpw.
    destruct (step_packets ev s s1 Es Hp) as (H1 & H3);
      rewrite ?Er; simpl; try lia.
    rewrite Er in H1. simpl in H1.
    destruct (IH s1 s' Hrun H3) as (H5 & H7);
      rewrite ?Ea; simpl; try lia.
    rewrite Ea in H5. simpl in H5. lia.
Qed.

Lemma run_bytes tr : forall s s',
  run OUTSTANDING_OPS tr s = Some s' ->
  bytes_sent (ctx (wk s)) <= bytes_received (ctx (wk s)) ->
  bytes_received (ctx (wk s))
    + snd (received_along OUTSTANDING_OPS tr s) < 2 ^ 64 ->
  bytes_received (ctx (wk s'))
  = bytes_received (ctx (wk s)) + snd (received_along OUTSTANDING_OPS tr s)
  /\ bytes_sent (ctx (wk s')) <= bytes_received (ctx (wk s')).
Proof.
  induction tr as [|ev tr IH]; intros s s'; simpl.
  - intros [= <-]. lia.
  - destruct (step OUTSTANDING_OPS ev s) as [s1|] eqn:Es; [|discriminate].
    destruct (received_by ev s) as [p b] eqn:Er.
    destruct (received_along OUTSTANDING_OPS tr s1) as [p' b'] eqn:Ea.
    simpl. intros Hrun Hb Hbw.
    destruct (step_bytes ev s s1 Es Hb) as (H2 & H4);
      rewrite ?Er; simpl; try lia.
    rewrite Er in H2. simpl in H2.
    destruct (IH s1 s' Hrun H4) as (H6 & H8);
      rewrite ?Ea; simpl; try lia.
    rewrite Ea in H6. simpl in H6. lia.
Qed.

End Counters.

(** C6, as far as it holds.  Every run from start-up runs on, and at its
    end: if fewer than 2^64 datagrams have been received along it (the 64-bit
    packets_received has not wrapped) then packets_sent <= packets_received,
    and packets_received is the number of datagrams received; if fewer than
    2^64 bytes have been received along it (bytes_received has not wrapped)
    then bytes_sent <= bytes_received, and bytes_received is the number of
    bytes received.  Each inequality depends on its own counter only. *)
Theorem counters_consistent_until_wrap OUTSTANDING_OPS fresh pid sock port
    affinity_ok oks tr :
  let start :=
    worker_start OUTSTANDING_OPS fresh
      (mk_worker_context pid sock port 0 0 0 0) affinity_ok oks in
  exists s,
    run OUTSTANDING_OPS tr start = Some s
    /\ (fst (received_along OUTSTANDING_OPS tr start) < 2 ^ 64 ->
        packets_sent (ctx (wk s)) <= packets_received (ctx (wk s))
        /\ packets_received (ctx (wk s))
           = fst (received_along OUTSTANDING_OPS tr start))
    /\ (snd (received_along OUTSTANDING_OPS tr start) < 2 ^ 64 ->
        bytes_sent (ctx (wk s)) <= bytes_received (ctx (wk s))
        /\ bytes_received (ctx (wk s))
           = snd (received_along OUTSTANDING_OPS tr start)).
Proof.
  intros start.
  destruct (invariant_run OUTSTANDING_OPS tr start
              (invariant_start OUTSTANDING_OPS fresh _ affinity_ok oks))
    as (s & Hrun & _).
  exists s. split; [assumption|]. split.
  - intros Hp.
    destruct (run_packets OUTSTANDING_OPS tr start s Hrun) as (H1 & H3);
      simpl; try lia.
    simpl in H1. lia.
  - intros Hb.
    destruct (run_bytes OUTSTANDING_OPS tr start s Hrun) as (H2 & H4);
      simpl; try lia.
    simpl in H2. lia.
Qed.

Lemma counters_consistent_until_wrap_witness :
  exists s,
    run 1 echo_cycle (worker_start 1 fresh_context cpu0 true []) = Some s
    /\ packets_sent (ctx (wk s)) <= packets_received (ctx (wk s))
    /\ packets_received (ctx (wk s)) = 1
    /\ bytes_sent (ctx (wk s)) <= bytes_received (ctx (wk s))
    /\ bytes_received (ctx (wk s)) = 1.
Proof.
  destruct (counters_consistent_until_wrap 1 fresh_context 0 7%Z 9%Z true []
              echo_cycle) as (s & Hrun & Hp & Hb).
  exists s. split; [exact Hrun|].
  destruct Hp as [Hp1 Hp2]; [reflexivity|].
  destruct Hb as [Hb1 Hb2]; [reflexivity|].
  split; [exact Hp1|]. split; [exact Hp2|]. split; [exact Hb1|exact Hb2].
Defined.

(** The worker of [echo_cycle] comes back to where it was, one datagram on. *)
Lemma echo_cycle_step k s :
  idle_after k s ->
  exists s', run 1 echo_cycle s = Some s' /\ idle_after (fetch_add k 1) s'.
Proof.
  intros (Hr & Hs & Hav & Hen & Hor & Hos & Hq & c0 & c1 & Hh & Hop & Hbuf).
  destruct s as [[c avail] [h orv osd q wr cs] es]. simpl in *. subst.
  destruct c0 as [op0 [|b buf0] ra0 rl0]; [contradiction|]. simpl in Hop.
  subst op0. eexists. split; [reflexivity|].
  unfold idle_after. simpl. rewrite Hs. repeat split; eauto.
Qed.

Lemma echo_cycles_run n : forall k s,
  idle_after k s -> k < 2 ^ 64 ->
  exists s',
    run 1 (echo_cycles n) s = Some s'
    /\ idle_after ((k + N.of_nat n) mod 2 ^ 64) s'.
Proof.
  induction n as [|n IH]; intros k s Hk Hlt.
  - exists s. split; [reflexivity|].
    rewrite N.add_0_r, N.mod_small by assumption. assumption.
  - destruct (echo_cycle_step k s Hk) as (s1 & Hrun1 & Hk1).
    destruct (IH (fetch_add k 1) s1 Hk1) as (s2 & Hrun2 & Hk2).
    { unfold fetch_add. by apply N.mod_upper_bound. }
    exists s2. split.
    + unfold echo_cycles in *. change (replicate (S n) echo_cycle)
        with (echo_cycle :: replicate n echo_cycle).
      rewrite concat_cons, run_app, Hrun1. exact Hrun2.
    + unfold fetch_add in Hk2.
      rewrite N.Div0.add_mod_idemp_l in Hk2.
      replace (k + N.of_nat (S n)) with (k + 1 + N.of_nat n) by lia.
      exact Hk2.
Qed.

Lemma empty_datagram_run k s :
  idle_after k s ->
  exists s',
    run 1 empty_datagram s = Some s'
    /\ packets_received (ctx (wk s')) = fetch_add k 1
    /\ packets_sent (ctx (wk s')) = k.
Proof.
  intros (Hr & Hs & Hav & Hen & Hor & Hos & Hq & c0 & c1 & Hh & Hop & Hbuf).
  destruct s as [[c avail] [h orv osd q wr cs] es]. simpl in *. subst.
  destruct c0 as [op0 buf0 ra0 rl0]. simpl in Hop. subst op0.
  eexists. split; [reflexivity|]. simpl. split; [reflexivity|exact Hs].
Qed.

Lemma start_is_idle : idle_after 0 (worker_start 1 fresh_context cpu0 true []).
Proof.
  unfold idle_after. simpl. repeat split.
  eexists _, _. split; [reflexivity|]. split; [reflexivity|discriminate].
Qed.

Lemma echo_cycle_step_bytes k s :
  idle_with_bytes k s ->
  exists s',
    run 1 echo_cycle s = Some s' /\ idle_with_bytes (fetch_add k 1) s'.
Proof.
  intros ((Hr & Hs & Hav & Hen & Hor & Hos & Hq & c0 & c1 & Hh & Hop & Hbuf)
          & Hbr & Hbs).
  destruct s as [[c avail] [h orv osd q wr cs] es]. simpl in *. subst.
  destruct c0 as [op0 [|b buf0] ra0 rl0]; [contradiction|]. simpl in Hop.
  subst op0. eexists. split; [reflexivity|].
  unfold idle_with_bytes, idle_after. simpl. rewrite Hs, Hbs, Hbr.
  repeat split; eauto.
Qed.

Lemma echo_cycles_run_bytes n : forall k s,
  idle_with_bytes k s -> k < 2 ^ 64 ->
  exists s',
    run 1 (echo_cycles n) s = Some s'
    /\ idle_with_bytes ((k + N.of_nat n) mod 2 ^ 64) s'.
Proof.
  induction n as [|n IH]; intros k s Hk Hlt.
  - exists s. split; [reflexivity|].
    rewrite N.add_0_r, N.mod_small by assumption. assumption.
  - destruct (echo_cycle_step_bytes k s Hk) as (s1 & Hrun1 & Hk1).
    destruct (IH (fetch_add k 1) s1 Hk1) as (s2 & Hrun2 & Hk2).
    { unfold fetch_add. by apply N.mod_upper_bound. }
    exists s2. split.
    + unfold echo_cycles in *. change (replicate (S n) echo_cycle)
        with (echo_cycle :: replicate n echo_cycle).
      rewrite concat_cons, run_app, Hrun1. exact Hrun2.
    + unfold fetch_add in Hk2.
      rewrite N.Div0.add_mod_idemp_l in Hk2.
      replace (k + N.of_nat (S n)) with (k + 1 + N.of_nat n) by lia.
      exact Hk2.
Qed.

(** After 2^64 - 1 echoed one-byte datagrams the worker is idle again and
    all four counters stand at 2^64 - 1. *)
Lemma full_counters_run :
  exists s,
    run 1 full_counters (worker_start 1 fresh_context cpu0 true []) = Some s
    /\ idle_with_bytes (2 ^ 64 - 1) s.
Proof.
  assert (idle_with_bytes 0 (worker_start 1 fresh_context cpu0 true []))
    as Hstart by (split; [apply start_is_idle|split; reflexivity]).
  destruct (echo_cycles_run_bytes (N.to_nat (2 ^ 64 - 1)) 0 _ Hstart)
    as (s1 & Hrun1 & Hidle); [reflexivity|].
  rewrite N2Nat.id in Hidle.
  change ((0 + (2 ^ 64 - 1)) mod 2 ^ 64) with (2 ^ 64 - 1) in Hidle.
  exists s1. unfold full_counters. split; [exact Hrun1|exact Hidle].
Qed.

(** A one-byte datagram reaches the idle worker of [echo_cycle]: its
    completion is the batch, with one byte on Recv Context 0. *)
Lemma one_byte_arrives_run k s :
  idle_with_bytes k s ->
  exists s' c0 c1,
    run 1 one_byte_arrives s = Some s'
    /\ wk s' = wk s
    /\ entries s' = [mk_entry 0 (Some 0%nat) 1]
    /\ heap (world s') = [c0; c1]
    /\ operation c0 = recv.
Proof.
  intros ((Hr & Hs & Hav & Hen & Hor & Hos & Hq & c0 & c1 & Hh & Hop & Hbuf)
          & Hbr & Hbs).
  destruct s as [[c avail] [h orv osd q wr cs] es]. simpl in *. subst.
  destruct c0 as [op0 [|b buf0] ra0 rl0]; [contradiction|]. simpl in Hop.
  subst op0. eexists _, _, _. split; [reflexivity|]. simpl. auto.
Qed.

Lemma empty_arrives_run k s :
  idle_with_bytes k s ->
  exists s' c0 c1,
    run 1 empty_arrives s = Some s'
    /\ wk s' = wk s
    /\ entries s' = [mk_entry 0 (Some 0%nat) 0]
    /\ heap (world s') = [c0; c1]
    /\ operation c0 = recv.
Proof.
  intros ((Hr & Hs & Hav & Hen & Hor & Hos & Hq & c0 & c1 & Hh & Hop & Hbuf)
          & Hbr & Hbs).
  destruct s as [[c avail] [h orv osd q wr cs] es]. simpl in *. subst.
  destruct c0 as [op0 buf0 ra0 rl0]. simpl in Hop.
  subst op0. eexists _, _, _. split; [reflexivity|]. simpl. auto.
Qed.

(** C6 as stated fails once a receive counter wraps.  After 2^64 - 1 echoed
    one-byte datagrams all four counters stand at 2^64 - 1.  The next
    datagram, if an empty one (which is not echoed), takes packets_received
    to 0; if a one-byte datagram whose Send the kernel refuses, it takes
    bytes_received to 0 as well, with bytes_sent left at 2^64 - 1. *)
Lemma counters_wrap :
  (exists s,
     run 1 wrapping_run (worker_start 1 fresh_context cpu0 true []) = Some s
     /\ packets_received (ctx (wk s)) = 0
     /\ packets_sent (ctx (wk s)) = 2 ^ 64 - 1
     /\ ~ packets_sent (ctx (wk s)) <= packets_received (ctx (wk s)))
  /\ (exists s,
        run 1 byte_wrapping_run (worker_start 1 fresh_context cpu0 true [])
        = Some s
        /\ bytes_received (ctx (wk s)) = 0
        /\ bytes_sent (ctx (wk s)) = 2 ^ 64 - 1
        /\ ~ bytes_sent (ctx (wk s)) <= bytes_received (ctx (wk s))).
Proof.
  split.
  - destruct (echo_cycles_run (N.to_nat (2 ^ 64 - 1)) 0 _ start_is_idle)
      as (s1 & Hrun1 & Hidle); [reflexivity|].
    rewrite N2Nat.id in Hidle.
    change ((0 + (2 ^ 64 - 1)) mod 2 ^ 64) with (2 ^ 64 - 1) in Hidle.
    destruct (empty_datagram_run _ s1 Hidle) as (s2 & Hrun2 & Hr & Hs).
    exists s2. unfold wrapping_run. rewrite run_app, Hrun1.
    split; [exact Hrun2|]. rewrite Hr, Hs.
    change (fetch_add (2 ^ 64 - 1) 1) with 0.
    split; [reflexivity|]. split; [reflexivity|]. intros H. revert H.
    apply N.lt_nge. reflexivity.
  - destruct full_counters_run as (s1 & Hrun1 & Hidle).
    destruct (one_byte_arrives_run _ s1 Hidle)
      as (s2 & c0 & c1 & Hrun2 & Hwk & Hen & Hh & Hop).
    destruct Hidle as ((_ & _ & Hav & _) & Hbr & Hbs).
    unfold byte_wrapping_run. rewrite run_app, Hrun1, run_app, Hrun2.
    clear Hrun1.
    destruct s2 as [w2 e2 es2]. simpl in *. subst es2 w2.
    assert (heap e2 !! 0%nat = Some c0) as Hc0 by (by rewrite Hh).
    assert (back (available_send_contexts (wk s1)) = Some 1%nat) as Hback
        by (by rewrite Hav).
    rewrite (process_entry_echo false true (mk_entry 0 (Some 0%nat) 1)
               (wk s1) e2 0%nat c0 1%nat eq_refl Hc0 Hop eq_refl Hback).
    eexists. split; [reflexivity|]. simpl. rewrite Hbr, Hbs.
    change (fetch_add (2 ^ 64 - 1) 1) with 0.
    split; [reflexivity|]. split; [reflexivity|]. intros H. revert H.
    apply N.lt_nge. reflexivity.
Qed.

(** C2 as stated fails at the top of the counter.  After 2^64 - 1 echoed
    datagrams packets_received stands at 2^64 - 1; an empty datagram arrives,
    and handling its completion takes packets_received to 0, which is not
    the old value plus 1. *)
Lemma zero_length_datagram_wraps :
  exists s entry w' e',
    run 1 (full_counters ++ empty_arrives)
        (worker_start 1 fresh_context cpu0 true []) = Some s
    /\ entries s = [entry]
    /\ dwNumberOfBytesTransferred entry = 0
    /\ packets_received (ctx (wk s)) = 2 ^ 64 - 1
    /\ process_entry true true entry (wk s) (world s) = Some (w', e')
    /\ packets_received (ctx w') = 0
    /\ packets_received (ctx w') <> packets_received (ctx (wk s)) + 1.
Proof.
  destruct full_counters_run as (s1 & Hrun1 & Hidle).
  destruct (empty_arrives_run _ s1 Hidle)
    as (s2 & c0 & c1 & Hrun2 & Hwk & Hen & Hh & Hop).
  destruct Hidle as ((Hr & _) & _).
  exists s2, (mk_entry 0 (Some 0%nat) 0). rewrite run_app, Hrun1, Hwk.
  clear Hrun1.
  destruct s2 as [w2 e2 es2]. simpl in *. subst es2 w2.
  unfold process_entry. simpl. rewrite Hh. simpl. rewrite Hop. simpl.
  destruct (post_recv true (socket (ctx (wk s1))) 0%nat e2) as [x e3].
  eexists _, _. split; [exact Hrun2|]. split; [reflexivity|].
  split; [reflexivity|]. split; [exact Hr|]. split; [reflexivity|].
  simpl. rewrite Hr. change (fetch_add (2 ^ 64 - 1) 1) with 0.
  split; [reflexivity|]. discriminate.
Qed.

(** C4 as stated fails at the top of the counters.  After 2^64 - 1 echoed
    one-byte datagrams packets_sent and bytes_sent stand at 2^64 - 1; one
    more datagram arrives, its Send is accepted, and both counters are 0
    afterwards, not the old values plus 1. *)
Lemma echo_attempt_wraps :
  exists s entry w' e',
    run 1 (full_counters ++ one_byte_arrives)
        (worker_start 1 fresh_context cpu0 true []) = Some s
    /\ entries s = [entry]
    /\ dwNumberOfBytesTransferred entry = 1
    /\ packets_sent (ctx (wk s)) = 2 ^ 64 - 1
    /\ bytes_sent (ctx (wk s)) = 2 ^ 64 - 1
    /\ process_entry true true entry (wk s) (world s) = Some (w', e')
    /\ length (wire e') = S (length (wire (world s)))
    /\ packets_sent (ctx w') = 0
    /\ bytes_sent (ctx w') = 0
    /\ packets_sent (ctx w') <> packets_sent (ctx (wk s)) + 1
    /\ bytes_sent (ctx w') <> bytes_sent (ctx (wk s)) + 1.
Proof.
  destruct full_counters_run as (s1 & Hrun1 & Hidle).
  destruct (one_byte_arrives_run _ s1 Hidle)
    as (s2 & c0 & c1 & Hrun2 & Hwk & Hen & Hh & Hop).
  destruct Hidle as ((_ & Hs & Hav & _) & _ & Hbs).
  exists s2, (mk_entry 0 (Some 0%nat) 1). rewrite run_app, Hrun1, Hwk.
  clear Hrun1.
  destruct s2 as [w2 e2 es2]. simpl in *. subst es2 w2.
  assert (heap e2 !! 0%nat = Some c0) as Hc0 by (by rewrite Hh).
  assert (back (available_send_contexts (wk s1)) = Some 1%nat) as Hback
      by (by rewrite Hav).
  rewrite (process_entry_echo true true (mk_entry 0 (Some 0%nat) 1)
             (wk s1) e2 0%nat c0 1%nat eq_refl Hc0 Hop eq_refl Hback).
  eexists _, _. split; [exact Hrun2|]. split; [reflexivity|].
  split; [reflexivity|]. split; [exact Hs|]. split; [exact Hbs|].
  split; [reflexivity|]. simpl.
  rewrite length_app, Hs, Hbs. simpl.
  change (fetch_add (2 ^ 64 - 1) 1) with 0.
  split; [lia|]. split; [reflexivity|]. split; [reflexivity|].
  split; discriminate.
Qed.

(** ** main: arguments and endpoints *)

Section Main.

Local Open Scope Z_scope.

Lemma strtol_range s : LONG_MIN <= strtol s <= LONG_MAX.
Proof.
  unfold strtol. assert (LONG_MIN <= LONG_MAX) by (vm_compute; discriminate).
  lia.
Qed.

Lemma to_uint32_small v : 0 <= v <= LONG_MAX -> to_uint32 v = v.
Proof.
  intros H. unfold to_uint32. apply Z.mod_small.
  assert (LONG_MAX < 2 ^ 32) by reflexivity. lia.
Qed.

(** Every loop iteration starts with one attempt at an IPv6 socket. *)
Lemma one_attempt_per_index i port recvbuf k :
  length (List.filter is_create_v6 (fst (create_endpoint i port recvbuf k)))
  = 1%nat.
Proof.
  unfold create_endpoint, finish_endpoint.
  destruct (socket_v6 k), (socket_v4 k), (bind_ok k), (iocp_created k);
    reflexivity.
Qed.

Lemma attempts_made n port recvbuf envs :
  length (List.filter is_create_v6
            (concat (map fst (create_endpoints n port recvbuf envs))))
  = Z.to_nat n.
Proof.
  unfold create_endpoints.
  transitivity (length (seq 0 (Z.to_nat n))); [|apply length_seq].
  induction (seq 0 (Z.to_nat n)) as [|i l IH]; [reflexivity|].
  simpl. rewrite List.filter_app, length_app, IH, one_attempt_per_index.
  reflexivity.
Qed.

(** C8. With [requested] the value of the --cores argument: 0, or more than
    the processor count, gives as many workers as there are processors; a
    value from 1 to the processor count gives that many; and the loop makes
    one attempt (starting with an IPv6 socket) for each of them. *)
Theorem cores_argument cores_str num_processors :
  0 <= num_processors < 2 ^ 32 ->
  let requested := atoi cores_str in
  let n := num_workers cores_str num_processors in
  (requested = 0 \/ num_processors < requested -> n = num_processors)
  /\ (1 <= requested <= num_processors -> n = requested)
  /\ (forall port recvbuf envs,
        length (List.filter is_create_v6
                  (concat (map fst (create_endpoints n port recvbuf envs))))
        = Z.to_nat n).
Proof.
  intros Hnp requested n. subst requested n. unfold num_workers.
  pose proof (strtol_range cores_str) as Hr. fold (atoi cores_str) in Hr.
  split; [|split].
  - intros Hreq. destruct (string_empty cores_str); [reflexivity|].
    destruct (0 <? atoi cores_str) eqn:Hpos; [|reflexivity].
    apply Z.ltb_lt in Hpos. rewrite to_uint32_small by lia.
    destruct (atoi cores_str <=? num_processors) eqn:Hle; [|reflexivity].
    apply Z.leb_le in Hle. lia.
  - intros Hreq. destruct (string_empty cores_str) eqn:He.
    + destruct cores_str; [|discriminate]. unfold atoi, strtol in Hreq.
      simpl in Hreq. vm_compute in Hreq. destruct Hreq as [Hreq _].
      exfalso. apply Hreq. reflexivity.
    + rewrite to_uint32_small by lia.
      replace (0 <? atoi cores_str) with true by (symmetry; apply Z.ltb_lt; lia).
      replace (atoi cores_str <=? num_processors) with true
        by (symmetry; apply Z.leb_le; lia).
      reflexivity.
  - intros port recvbuf envs. apply attempts_made.
Qed.

Lemma cores_argument_witness :
  (atoi "4" = 0 \/ 8 < atoi "4" -> num_workers "4" 8 = 8)
  /\ (1 <= atoi "4" <= 8 -> num_workers "4" 8 = atoi "4")
  /\ (forall port recvbuf envs,
        length (List.filter is_create_v6
                  (concat (map fst (create_endpoints (num_workers "4" 8)
                                      port recvbuf envs))))
        = Z.to_nat (num_workers "4" 8)).
Proof. apply (cores_argument "4" 8). vm_compute. split; congruence. Defined.

Lemma buffer_requests_app a b :
  buffer_requests (a ++ b) = buffer_requests a ++ buffer_requests b.
Proof. apply omap_app. Qed.

(** One endpoint: a receive and a send buffer request, both for [recvbuf],
    whenever a socket could be created. *)
Lemma endpoint_buffer_requests i port recvbuf k :
  buffer_requests (fst (create_endpoint i port recvbuf k))
  = match socket_v6 k, socket_v4 k with
    | None, None => []
    | _, _ => [(SO_RCVBUF, recvbuf); (SO_SNDBUF, recvbuf)]
    end.
Proof.
  unfold create_endpoint, finish_endpoint.
  destruct (socket_v6 k), (socket_v4 k), (bind_ok k), (iocp_created k);
    reflexivity.
Qed.

Lemma all_buffer_requests n port recvbuf envs :
  Forall (fun r => snd r = recvbuf)
    (buffer_requests (concat (map fst (create_endpoints n port recvbuf envs)))).
Proof.
  unfold create_endpoints.
  induction (seq 0 (Z.to_nat n)) as [|i l IH]; simpl; [constructor|].
  rewrite buffer_requests_app. apply Forall_app. split; [|exact IH].
  rewrite endpoint_buffer_requests.
  destruct (socket_v6 (envs (Z.of_nat i))), (socket_v4 (envs (Z.of_nat i)));
    repeat constructor.
Qed.

(** C10. A --recvbuf string that strtol reads as a value <= 0 (zero, a
    negative number, text without digits): the buffer size is the default
    4194304, [main] runs exactly as it does for the string "4194304" (no
    error, no different exit), and every SO_RCVBUF and SO_SNDBUF request it
    makes is for 4194304 bytes. *)
Theorem recvbuf_argument recvbuf_str :
  strtol recvbuf_str <= 0 ->
  parse_recvbuf recvbuf_str = 4194304
  /\ (forall i port k sock,
        socket_v6 k = Some sock \/ socket_v4 k = Some sock ->
        buffer_requests
          (fst (create_endpoint i port (parse_recvbuf recvbuf_str) k))
        = [(SO_RCVBUF, 4194304); (SO_SNDBUF, 4194304)])
  /\ (forall help port_str cores_str num_processors winsock_ok envs,
        main help port_str cores_str recvbuf_str num_processors winsock_ok envs
        = main help port_str cores_str "4194304" num_processors winsock_ok envs
        /\ Forall (fun r => snd r = 4194304)
             (buffer_requests
                (snd (main help port_str cores_str recvbuf_str
                        num_processors winsock_ok envs)))).
Proof.
  intros Hv.
  assert (parse_recvbuf recvbuf_str = 4194304) as Hp.
  { unfold parse_recvbuf. destruct (string_empty recvbuf_str); [reflexivity|].
    replace (0 <? strtol recvbuf_str) with false; [reflexivity|].
    symmetry. apply Z.ltb_ge. exact Hv. }
  split; [exact Hp|]. split.
  { intros i port k sock Hsock. rewrite Hp, endpoint_buffer_requests.
    destruct (socket_v6 k), (socket_v4 k); try reflexivity.
    destruct Hsock; discriminate. }
  intros help port_str cores_str np ws envs.
  unfold main. rewrite Hp.
  change (parse_recvbuf "4194304") with 4194304.
  split; [reflexivity|].
  destruct help; [constructor|].
  destruct (string_empty port_str); [constructor|].
  destruct ((atoi port_str <=? 0) || (65535 <? atoi port_str)); [constructor|].
  destruct (negb ws); [constructor|].
  pose proof (all_buffer_requests (num_workers cores_str np) (atoi port_str)
                4194304 envs) as Hall.
  destruct (omap snd _); exact Hall.
Qed.

Lemma recvbuf_argument_witness :
  parse_recvbuf "abc" = 4194304
  /\ (forall i port k sock,
        socket_v6 k = Some sock \/ socket_v4 k = Some sock ->
        buffer_requests (fst (create_endpoint i port (parse_recvbuf "abc") k))
        = [(SO_RCVBUF, 4194304); (SO_SNDBUF, 4194304)])
  /\ (forall help port_str cores_str num_processors winsock_ok envs,
        main help port_str cores_str "abc" num_processors winsock_ok envs
        = main help port_str cores_str "4194304" num_processors winsock_ok envs
        /\ Forall (fun r => snd r = 4194304)
             (buffer_requests
                (snd (main help port_str cores_str "abc"
                        num_processors winsock_ok envs)))).
Proof. apply (recvbuf_argument "abc"). vm_compute. discriminate. Defined.

(** Zero, negative numbers and text without digits are all read as <= 0. *)
Lemma non_positive_recvbuf_strings :
  strtol "0" = 0 /\ strtol "-5" = -5 /\ strtol "abc" = 0 /\ strtol "" = 0
  /\ strtol "  -12kB" = -12.
Proof. repeat split; reflexivity. Qed.

(** C7, as far as it holds.  For every worker index: the first call asks
    for an IPv6 socket; an IPv4 socket is asked for only when that failed;
    on an IPv6 socket the worker asks to clear the IPv6-only flag; a retained
    endpoint is IPv4 only when no IPv6 socket could be created; and a
    retained IPv6 endpoint is used as IPv6 whether or not the flag could be
    cleared: the flag is clear when the request succeeded and is what it was
    when the request failed. *)
Theorem endpoint_family i port recvbuf k :
  let r := create_endpoint i port recvbuf k in
  hd_error (fst r) = Some (CreateUdpSocket AF_INET6 (socket_v6 k))
  /\ ((exists r4, In (CreateUdpSocket AF_INET r4) (fst r))
      <-> socket_v6 k = None)
  /\ (forall sock, socket_v6 k = Some sock ->
        In (SetSockOpt sock IPV6_V6ONLY 0 (clear_v6only_ok k)) (fst r))
  /\ (forall ep, snd r = Some ep ->
        (ep_family ep = AF_INET <-> socket_v6 k = None)
        /\ (ep_family ep = AF_INET6 ->
            ep_using_ipv6 ep = true
            /\ socket_v6 k = Some (socket (ep_ctx ep))
            /\ (clear_v6only_ok k = true -> ep_v6only ep = false)
            /\ (clear_v6only_ok k = false ->
                ep_v6only ep = v6only_initially k))).
Proof.
  unfold create_endpoint, finish_endpoint.
  destruct k as [s6 s4 v0 clr aff rb sb bnd io]; simpl.
  destruct s6 as [sock6|], s4 as [sock4|], bnd, io as [h|], clr; simpl;
    (split; [reflexivity|]);
    (split; [split; [intros [r4 Hin]; simpl in Hin;
                     repeat (destruct Hin as [Hin|Hin]; try discriminate);
                     try contradiction; reflexivity
                    |intros Hnone; try discriminate; eexists; simpl; eauto]|]);
    (split; [intros sock Hs; try discriminate; injection Hs as <-;
             simpl; auto|]);
    intros ep Hep; try discriminate; injection Hep as <-; simpl;
    (split; [split; intros; congruence|]);
    intros; repeat split; intros; congruence.
Qed.

(** C7 as stated fails in its last part: where the IPv6-only flag cannot be
    cleared, worker 0 is still retained with its IPv6 socket, flag set, and
    [main] goes on to serve with it. *)
Lemma ipv6_endpoint_kept_with_flag_set :
  exists ep calls,
    create_endpoint 0 9000 4194304 v6only_stuck = (calls, Some ep)
    /\ ep_family ep = AF_INET6
    /\ ep_v6only ep = true
    /\ In (SetSockOpt 100 IPV6_V6ONLY 0 false) calls
    /\ fst (main false "9000" "1" "" 8 true (fun _ => v6only_stuck))
       = Serving 9000 [ep].
Proof.
  eexists _, _. split; [reflexivity|]. simpl.
  split; [reflexivity|]. split; [reflexivity|]. split; [auto|reflexivity].
Qed.

End Main.

(** ** TDigest::percentile *)

Section Percentile.

Import TDigest.
Local Open Scope float_scope.

Lemma walk_index_Some target c m v :
  walk target c m = Some v ->
  exists i w,
    walk_index target c m = Some i
    /\ m !! i = Some (v, w)
    /\ (target <=? fold_left (fun c p => c + snd p) (take i m) c + w) = true
    /\ (forall j vj wj,
          (j < i)%nat -> m !! j = Some (vj, wj) ->
          (target <=? fold_left (fun c p => c + snd p) (take j m) c + wj)
          = false).
Proof.
  revert c. induction m as [|[v0 w0] m IH]; intros c; simpl; [discriminate|].
  destruct (target <=? c + w0) eqn:Hle.
  - intros [= <-]. exists 0%nat, w0. repeat split; auto. intros j vj wj Hj. lia.
  - intros Hw. destruct (IH _ Hw) as (i & w & Hi & Hl & Hs & Hb).
    exists (S i), w. rewrite Hi. repeat split; auto.
    intros [|j] vj wj Hj Hlook; simpl in *.
    + injection Hlook as <- <-. exact Hle.
    + apply (Hb j vj wj); [lia|assumption].
Qed.

Lemma walk_None target c m :
  walk target c m = None ->
  forall j vj wj,
    m !! j = Some (vj, wj) ->
    (target <=? fold_left (fun c p => c + snd p) (take j m) c + wj) = false.
Proof.
  revert c. induction m as [|[v0 w0] m IH]; intros c; simpl.
  - intros _ j vj wj Hlook. destruct j; discriminate.
  - destruct (target <=? c + w0) eqn:Hle; [discriminate|].
    intros Hw [|j] vj wj Hlook; simpl in *.
    + injection Hlook as <- <-. exact Hle.
    + by apply (IH _ Hw j vj wj).
Qed.

(** X19. What [percentile] returns on a digest that holds something, for q
    in [0,1]: the stored value of the first bucket whose cumulative weight
    reaches q times the total weight, or of the last bucket when none does.
    No arithmetic is done on the value. *)
Lemma percentile_returns_stored_value q d :
  ((0 <=? q) && (q <=? 1))%bool = true ->
  (total_weight_ d <=? 0) = false ->
  merged_view d <> [] ->
  exists i v w,
    merged_view d !! i = Some (v, w)
    /\ percentile q d = Value v
    /\ (forall j vj wj,
          (j < i)%nat -> merged_view d !! j = Some (vj, wj) ->
          (q * total_weight_ d <=? cumulative_before j (merged_view d) + wj)
          = false)
    /\ ((q * total_weight_ d <=? cumulative_before i (merged_view d) + w) = true
        \/ S i = length (merged_view d)).
Proof.
  intros Hq Hw Hne. unfold percentile. rewrite Hq, Hw. simpl.
  destruct (merged_view d) as [|b m] eqn:Hm; [contradiction|].
  rewrite <- Hm in *. clear Hne.
  destruct (walk (q * total_weight_ d) 0 (merged_view d)) as [v|] eqn:Hwalk.
  - destruct (walk_index_Some _ _ _ _ Hwalk) as (i & w & _ & Hl & Hs & Hb).
    exists i, v, w. unfold cumulative_before. auto.
  - pose proof (walk_None _ _ _ Hwalk) as Hb.
    destruct (last (merged_view d)) as [[v w]|] eqn:Hlast.
    + exists (pred (length (merged_view d))), v, w.
      rewrite last_lookup in Hlast. split; [exact Hlast|].
      split; [reflexivity|]. split.
      * intros j vj wj _ Hlook. by apply (Hb j vj wj).
      * right. rewrite Hm. reflexivity.
    + apply last_None in Hlast. rewrite Hm in Hlast. discriminate.
Qed.






(** The buckets at work.  On the two buffered points 10 and 20,
    percentile(0.75) asks for cumulative weight 1.5, which the second bucket
    (weights 1 to 2) is the first to reach, and returns 20, that bucket's
    value, as it does for every other target in the bucket (0.625, 1); the
    first bucket gives 10 throughout (0, 0.5).  On a single centroid of mean
    20 and weight 3 the result is 20 for every q. *)
Lemma percentile_steps :
  percentile 0.75 two_points = Value 20
  /\ percentile 0.625 two_points = Value 20
  /\ percentile 1 two_points = Value 20
  /\ percentile 0.5 two_points = Value 10
  /\ percentile 0 two_points = Value 10
  /\ centroids_ one_centroid = [mk_centroid 20 3]
  /\ percentile 0 one_centroid = Value 20
  /\ percentile 0.5 one_centroid = Value 20
  /\ percentile 1 one_centroid = Value 20.
Proof. repeat split; reflexivity. Qed.

End Percentile.

(** ** What the worker has done *)

Section Provenance.

Variable OUTSTANDING_OPS : nat.
Variable sock : SOCKET.
Local Open Scope N_scope.

(** The five ways through the loop body. *)
Lemma process_entry_cases send_ok recv_ok entry w e w' e' :
  process_entry send_ok recv_ok entry w e = Some (w', e') ->
  (lpOverlapped entry = None /\ w' = w /\ e' = e)
  \/ (exists p c,
        lpOverlapped entry = Some p /\ heap e !! p = Some c
        /\ operation c = send
        /\ w' = mk_worker (ctx w) (push_back (available_send_contexts w) p)
        /\ e' = e)
  \/ (exists p c e1,
        lpOverlapped entry = Some p /\ heap e !! p = Some c
        /\ operation c = recv
        /\ e' = snd (post_recv recv_ok (socket (ctx w)) p e1)
        /\ let n := dwNumberOfBytesTransferred entry in
           let ctx1 := count_received n (ctx w) in
           (0 < n /\ exists send_ctx,
              back (available_send_contexts w) = Some send_ctx
              /\ e1 = snd (post_send send_ok (socket (ctx w)) send_ctx
                             (buffer c) n (remote_addr c) (remote_addr_len c) e)
              /\ w' = if send_ok
                      then mk_worker (count_sent n ctx1)
                                     (pop_back (available_send_contexts w))
                      else mk_worker ctx1 (available_send_contexts w))
           \/ (e1 = record_call
                      (Log (no_available_send_context (processor_id (ctx w)))) e
               /\ w' = mk_worker ctx1 (available_send_contexts w))
           \/ (n = 0 /\ e1 = e
               /\ w' = mk_worker ctx1 (available_send_contexts w))).
Proof.
  unfold process_entry.
  destruct (lpOverlapped entry) as [p|]; [|intros [= <- <-]; auto].
  destruct (heap e !! p) as [c|] eqn:Ec; [|discriminate].
  destruct (operation c) eqn:Eop.
  2: { intros [= <- <-]. right. left. eauto 10. }
  right. right. exists p, c.
  destruct (0 <? dwNumberOfBytesTransferred entry) eqn:En.
  - apply N.ltb_lt in En.
    destruct (back (available_send_contexts w)) as [send_ctx|] eqn:Eb.
    + simpl.
      destruct (post_send send_ok _ send_ctx _ _ _ _ e) as [sent e1] eqn:Es.
      assert (sent = send_ok) as ->
          by (unfold post_send in Es; destruct send_ok; congruence).
      destruct (post_recv recv_ok _ p e1) as [x e2] eqn:Er.
      intros. simplify_eq. exists e1. simpl in Er. rewrite Er.
      repeat split; auto.
      left. split; [assumption|]. exists send_ctx. split; [reflexivity|].
      simpl in Es. rewrite Es.
      split; [reflexivity|]. destruct send_ok; [reflexivity|].
      by rewrite (pop_then_push _ _ Eb).
    + simpl. destruct (post_recv recv_ok _ p _) as [x e2] eqn:Er.
      intros. simplify_eq. eexists. simpl in Er. rewrite Er.
      repeat split; auto.
  - apply N.ltb_ge in En. simpl.
    destruct (post_recv recv_ok _ p e) as [x e2] eqn:Er.
    intros. simplify_eq. exists e. simpl in Er. rewrite Er.
    repeat split; auto.
    right. right. repeat split; auto. lia.
Qed.

Lemma echo_of_mono seen more dg :
  echo_of seen sock dg -> echo_of (seen ++ more) sock dg.
Proof.
  intros (Hs & Hn & i & payload & Hin & Hpre). repeat split; auto.
  exists i, payload. split; [|assumption]. apply elem_of_app. auto.
Qed.

Lemma pending_mono seen more h es :
  pending OUTSTANDING_OPS seen h es ->
  pending OUTSTANDING_OPS (seen ++ more) h es.
Proof.
  intros Hp entry p c Hin Hptr Hlt Hc.
  destruct (Hp entry p c Hin Hptr Hlt Hc) as (Hlen & i & payload & Hev & Hpre).
  split; [assumption|]. exists i, payload. split; [|assumption].
  apply elem_of_app. auto.
Qed.

Lemma pending_subset seen h es es' :
  (forall x, x ∈ es' -> x ∈ es) ->
  pending OUTSTANDING_OPS seen h es -> pending OUTSTANDING_OPS seen h es'.
Proof. intros Hsub Hp entry p c Hin. apply Hp, Hsub, Hin. Qed.

(** [pending] only looks at the buffers and peer addresses of Recv Contexts. *)
Lemma pending_heap seen h h' es :
  (forall q c', (q < OUTSTANDING_OPS)%nat -> h' !! q = Some c' ->
     exists c, h !! q = Some c /\ buffer c' = buffer c
               /\ remote_addr c' = remote_addr c
               /\ remote_addr_len c' = remote_addr_len c) ->
  pending OUTSTANDING_OPS seen h es -> pending OUTSTANDING_OPS seen h' es.
Proof.
  intros Hh Hp entry p c' Hin Hptr Hlt Hc'.
  destruct (Hh p c' Hlt Hc') as (c & Hc & -> & -> & ->).
  exact (Hp entry p c Hin Hptr Hlt Hc).
Qed.

Lemma post_recv_heap ok sk p e q c' :
  heap (snd (post_recv ok sk p e)) !! q = Some c' ->
  exists c, heap e !! q = Some c /\ buffer c' = buffer c
            /\ remote_addr c' = remote_addr c
            /\ remote_addr_len c' = remote_addr_len c.
Proof.
  unfold post_recv. destruct ok; simpl; [|eauto].
  intros Hlook.
  apply lookup_alter_inv in Hlook as [(-> & c & Hc & ->)|[_ Hlook]]; eauto.
Qed.

Lemma post_send_heap ok sk send_ctx data len dest dest_len e q c' :
  q <> send_ctx ->
  heap (snd (post_send ok sk send_ctx data len dest dest_len e)) !! q = Some c' ->
  heap e !! q = Some c'.
Proof.
  intros Hne. unfold post_send. destruct ok; simpl; [|auto].
  intros Hlook.
  apply lookup_alter_inv in Hlook as [(-> & _)|[_ Hlook]]; [contradiction|auto].
Qed.

Lemma post_recv_queue ok sk p e :
  completion_queue (snd (post_recv ok sk p e)) = completion_queue e.
Proof. unfold post_recv. destruct ok; reflexivity. Qed.

Lemma post_recv_outstanding_recv ok sk p e :
  outstanding_recv (snd (post_recv ok sk p e))
  = outstanding_recv e ++ (if ok then [p] else []).
Proof. unfold post_recv. destruct ok; simpl; by rewrite ?app_nil_r. Qed.

Lemma post_send_queue ok sk sp data len dest dl e :
  completion_queue (snd (post_send ok sk sp data len dest dl e))
  = completion_queue e.
Proof. unfold post_send. destruct ok; reflexivity. Qed.

Lemma post_send_outstanding_recv ok sk sp data len dest dl e :
  outstanding_recv (snd (post_send ok sk sp data len dest dl e))
  = outstanding_recv e.
Proof. unfold post_send. destruct ok; reflexivity. Qed.

Lemma post_send_outstanding_send ok sk sp data len dest dl e :
  outstanding_send (snd (post_send ok sk sp data len dest dl e))
  = outstanding_send e ++ (if ok then [sp] else []).
Proof. unfold post_send. destruct ok; simpl; by rewrite ?app_nil_r. Qed.

Lemma post_send_wire ok sk sp data len dest dl e :
  wire (snd (post_send ok sk sp data len dest dl e))
  = wire e ++ (if ok then [mk_datagram sk (take (N.to_nat len) data) dest dl]
               else []).
Proof. unfold post_send. destruct ok; simpl; by rewrite ?app_nil_r. Qed.

Lemma post_send_calls ok sk sp data len dest dl e :
  calls (snd (post_send ok sk sp data len dest dl e))
  = calls e ++ [PostSend sk sp data len dest dl ok].
Proof. unfold post_send. destruct ok; reflexivity. Qed.

Lemma recv_posts_snoc cs c :
  recv_posts (cs ++ [c])
  = (recv_posts cs + (if is_post_recv c then 1 else 0))%nat.
Proof.
  unfold recv_posts. rewrite filter_app, length_app. f_equal.
  rewrite filter_cons, filter_nil.
  destruct (is_post_recv c); case_decide; simpl; congruence.
Qed.

Lemma wire_bytes_snoc w dg :
  wire_bytes (w ++ [dg]) = wire_bytes w + N.of_nat (length (dg_payload dg)).
Proof. induction w as [|d w IH]; simpl; [lia|]. rewrite IH. lia. Qed.

Lemma take_prefix_of {A} n (l : list A) : take n l `prefix_of` l.
Proof. exists (drop n l). by rewrite take_drop. Qed.

Lemma provenance_mono seen more s :
  provenance OUTSTANDING_OPS sock seen s ->
  provenance OUTSTANDING_OPS sock (seen ++ more) s.
Proof.
  intros [H1 H2 H3 H4 H5 H6 H7 H8]. split; auto.
  - eapply Forall_impl; [exact H4|]. intros dg. apply echo_of_mono.
  - by apply pending_mono.
Qed.

(** A context with a request outstanding has no completion waiting. *)
Lemma outstanding_not_pending s p :
  invariant OUTSTANDING_OPS s ->
  p ∈ outstanding_recv (world s) ->
  p ∉ pointers (completion_queue (world s) ++ entries s).
Proof.
  intros [_ _ _ (idle & _ & _ & Hp)] Hin Hpend.
  assert (NoDup (kernel_owned s ++ app_executing s ++ app_free s ++ idle))
    as Hnd by (rewrite Hp; apply NoDup_seq).
  unfold kernel_owned, app_executing in Hnd. rewrite <- !app_assoc in Hnd.
  apply NoDup_app in Hnd as (_ & Hdis & _). apply (Hdis p Hin).
  rewrite pointers_app in Hpend. rewrite !elem_of_app in *. tauto.
Qed.

Lemma pointer_of_entry (es : list OVERLAPPED_ENTRY) entry p :
  entry ∈ es -> lpOverlapped entry = Some p -> p ∈ pointers es.
Proof. intros Hin Hptr. apply list_elem_of_omap. eauto. Qed.

Lemma provenance_deliver seen i payload from from_len s :
  ev_datagram i payload from from_len ∈ seen ->
  invariant OUTSTANDING_OPS s ->
  provenance OUTSTANDING_OPS sock seen s ->
  provenance OUTSTANDING_OPS sock seen
    (mk_state (wk s) (deliver_datagram i payload from from_len (world s))
              (entries s)).
Proof.
  intros Hev Hinv Hpv. pose proof Hpv as [H1 H2 H3 H4 H5 H6 H7 H8].
  destruct s as [w e es]. simpl in *. unfold deliver_datagram.
  destruct (outstanding_recv e !! i) as [p|] eqn:Ei; [|assumption].
  destruct (heap e !! p) as [c|] eqn:Ec; [|assumption].
  assert (p ∈ outstanding_recv e) as Hp by (eapply list_elem_of_lookup_2; eauto).
  pose proof (outstanding_not_pending _ p Hinv Hp) as Hfree. simpl in Hfree.
  set (n := Nat.min (length payload) (length (buffer c))).
  split; simpl; auto.
  - intros q Hq. apply H2. eapply list_elem_of_delete_inv; eauto.
  - intros entry q cq Hin Hptr Hlt Hlook.
    rewrite <- app_assoc in Hin. apply elem_of_app in Hin as [Hin|Hin].
    + assert (q <> p) as Hne.
      { intros ->. apply Hfree. apply (pointer_of_entry _ entry); [|assumption].
        apply elem_of_app. auto. }
      rewrite list_lookup_insert_ne in Hlook by congruence.
      apply (H5 entry q cq); auto. apply elem_of_app. auto.
    + apply elem_of_cons in Hin as [->|Hin].
      * simpl in Hptr. injection Hptr as <-.
        rewrite list_lookup_insert_eq in Hlook
          by (apply lookup_lt_is_Some; eauto).
        injection Hlook as <-. simpl. rewrite Nat2N.id.
        assert (n <= length payload)%nat as Hn by (unfold n; lia).
        split.
        -- rewrite length_app, length_take, length_drop. unfold n. lia.
        -- exists i, payload. split; [assumption|].
           rewrite take_app_le by (rewrite length_take; lia).
           rewrite take_take, Nat.min_id. apply take_prefix_of.
      * assert (q <> p) as Hne.
        { intros ->. apply Hfree. apply (pointer_of_entry _ entry); [|assumption].
          apply elem_of_app. auto. }
        rewrite list_lookup_insert_ne in Hlook by congruence.
        apply (H5 entry q cq); auto. apply elem_of_app. auto.
Qed.

Lemma provenance_complete_send seen i n s :
  provenance OUTSTANDING_OPS sock seen s ->
  provenance OUTSTANDING_OPS sock seen
    (mk_state (wk s) (complete_send i n (world s)) (entries s)).
Proof.
  intros Hpv. pose proof Hpv as [H1 H2 H3 H4 H5 H6 H7 H8].
  destruct s as [w e es]. simpl in *. unfold complete_send.
  destruct (outstanding_send e !! i) as [p|] eqn:Ei; [|assumption].
  assert (p ∈ outstanding_send e) as Hp by (eapply list_elem_of_lookup_2; eauto).
  split; simpl; auto.
  - intros q Hq. apply H3. eapply list_elem_of_delete_inv; eauto.
  - intros entry q cq Hin Hptr Hlt Hlook.
    rewrite <- app_assoc in Hin. apply elem_of_app in Hin as [Hin|Hin].
    + apply (H5 entry q cq); auto. apply elem_of_app. auto.
    + apply elem_of_cons in Hin as [->|Hin].
      * simpl in Hptr. injection Hptr as <-. apply H3 in Hp. lia.
      * apply (H5 entry q cq); auto. apply elem_of_app. auto.
Qed.

Lemma provenance_wake seen s :
  provenance OUTSTANDING_OPS sock seen s ->
  provenance OUTSTANDING_OPS sock seen
    (mk_state (wk s) (enqueue (mk_entry 0 None 0) (world s)) (entries s)).
Proof.
  intros [H1 H2 H3 H4 H5 H6 H7 H8]. destruct s as [w e es]. simpl in *.
  split; simpl; auto.
  intros entry q cq Hin Hptr Hlt Hlook.
  rewrite <- app_assoc in Hin. apply elem_of_app in Hin as [Hin|Hin].
  - apply (H5 entry q cq); auto. apply elem_of_app. auto.
  - apply elem_of_cons in Hin as [->|Hin]; [discriminate|].
    apply (H5 entry q cq); auto. apply elem_of_app. auto.
Qed.

Lemma provenance_dequeue seen s :
  provenance OUTSTANDING_OPS sock seen s ->
  provenance OUTSTANDING_OPS sock seen (dequeue OUTSTANDING_OPS s).
Proof.
  intros Hpv. pose proof Hpv as [H1 H2 H3 H4 H5 H6 H7 H8].
  destruct s as [w e es]. unfold dequeue. simpl in *.
  destruct es as [|en es]; [|assumption].
  split; simpl; auto.
  eapply pending_subset; [|exact H5].
  intros x Hx. rewrite app_nil_r.
  apply elem_of_app in Hx as [Hx|Hx].
  - by apply (subseteq_drop _ _ x) in Hx.
  - by apply (subseteq_take _ _ x) in Hx.
Qed.

Lemma recv_posts_app a b : recv_posts (a ++ b) = (recv_posts a + recv_posts b)%nat.
Proof. unfold recv_posts. by rewrite filter_app, length_app. Qed.

Lemma fetch_add_mod a d :
  fetch_add (a mod 2 ^ 64) d = (a + d) mod 2 ^ 64.
Proof. unfold fetch_add. by rewrite N.Div0.add_mod_idemp_l. Qed.

(** The echo part of the loop body on a Recv completion: what it leaves
    behind before the Recv is posted again. *)
Lemma provenance_echo_part seen send_ok entry rest w e p c e1 w' :
  invariant OUTSTANDING_OPS (mk_state w e (entry :: rest)) ->
  provenance OUTSTANDING_OPS sock seen (mk_state w e (entry :: rest)) ->
  lpOverlapped entry = Some p ->
  heap e !! p = Some c ->
  (p < OUTSTANDING_OPS)%nat ->
  (let n := dwNumberOfBytesTransferred entry in
   let ctx1 := count_received n (ctx w) in
   (0 < n /\ exists send_ctx,
      back (available_send_contexts w) = Some send_ctx
      /\ e1 = snd (post_send send_ok (socket (ctx w)) send_ctx
                     (buffer c) n (remote_addr c) (remote_addr_len c) e)
      /\ w' = if send_ok
              then mk_worker (count_sent n ctx1)
                             (pop_back (available_send_contexts w))
              else mk_worker ctx1 (available_send_contexts w))
   \/ (e1 = record_call
              (Log (no_available_send_context (processor_id (ctx w)))) e
       /\ w' = mk_worker ctx1 (available_send_contexts w))
   \/ (n = 0 /\ e1 = e
       /\ w' = mk_worker ctx1 (available_send_contexts w))) ->
  exists taken sent cs1,
    outstanding_recv e1 = outstanding_recv e
    /\ outstanding_send e1 = outstanding_send e ++ taken
    /\ (forall x, x ∈ taken -> (OUTSTANDING_OPS <= x)%nat)
    /\ completion_queue e1 = completion_queue e
    /\ wire e1 = wire e ++ sent
    /\ Forall (echo_of seen sock) sent
    /\ calls e1 = calls e ++ cs1
    /\ recv_posts cs1 = 0%nat
    /\ Forall (fun c => call_socket c = None \/ call_socket c = Some sock) cs1
    /\ (forall q c', (q < OUTSTANDING_OPS)%nat ->
          heap e1 !! q = Some c' -> heap e !! q = Some c')
    /\ socket (ctx w') = sock
    /\ packets_received (ctx w') = fetch_add (packets_received (ctx w)) 1
    /\ packets_sent (ctx w') = N.of_nat (length (wire e ++ sent)) mod 2 ^ 64
    /\ bytes_sent (ctx w') = wire_bytes (wire e ++ sent) mod 2 ^ 64.
Proof.
  intros Hinv [H1 H2 H3 H4 H5 [H6 H6'] H7 H8] Hptr Hc Hlt Hcase.
  simpl in *.
  destruct (H5 entry p c) as (Hfit & i & payload & Hev & Hpre); auto.
  { apply elem_of_app. right. apply elem_of_cons. auto. }
  destruct Hcase as [(Hn & send_ctx & Hb & -> & ->)|[[-> ->]|(Hn & -> & ->)]].
  - assert (OUTSTANDING_OPS <= send_ctx)%nat as Hs.
    { apply (inv_free _ _ Hinv). unfold app_free. simpl.
      rewrite (back_Some _ _ Hb).
      apply elem_of_app. right. apply elem_of_cons. auto. }
    rewrite post_send_outstanding_recv, post_send_outstanding_send,
      post_send_queue, post_send_wire, post_send_calls.
    set (n := dwNumberOfBytesTransferred entry) in *.
    set (dg := mk_datagram (socket (ctx w)) (take (N.to_nat n) (buffer c))
                           (remote_addr c) (remote_addr_len c)).
    assert (echo_of seen sock dg) as Hecho.
    { split; [exact H1|]. split.
      - simpl. intros Hnil. apply (f_equal length) in Hnil.
        rewrite length_take in Hnil. simpl in Hnil. lia.
      - exists i, payload. auto. }
    exists (if send_ok then [send_ctx] else []), (if send_ok then [dg] else []),
      [PostSend (socket (ctx w)) send_ctx (buffer c) n (remote_addr c)
                (remote_addr_len c) send_ok].
    split_and!.
    + reflexivity.
    + reflexivity.
    + intros x Hx. destruct send_ok; [|by apply elem_of_nil in Hx].
      apply list_elem_of_singleton in Hx. by subst.
    + reflexivity.
    + reflexivity.
    + destruct send_ok; [|constructor].
      constructor; [exact Hecho|constructor].
    + reflexivity.
    + reflexivity.
    + constructor; [|constructor]. simpl. right. by rewrite H1.
    + intros q c' Hq. apply post_send_heap. lia.
    + by destruct send_ok.
    + by destruct send_ok.
    + destruct send_ok; simpl; [|by rewrite app_nil_r].
      rewrite H6, fetch_add_mod, length_app. simpl. f_equal. lia.
    + destruct send_ok; simpl; [|by rewrite app_nil_r].
      rewrite H6', fetch_add_mod, wire_bytes_snoc. simpl.
      rewrite length_take. f_equal. lia.
  - exists [], [], [Log (no_available_send_context (processor_id (ctx w)))].
    simpl. rewrite !app_nil_r.
    split_and!; auto; try (intros x Hx; by apply elem_of_nil in Hx).
  - exists [], [], []. simpl. rewrite !app_nil_r.
    split_and!; auto; try (intros x Hx; by apply elem_of_nil in Hx).
Qed.

Lemma provenance_process seen send_ok recv_ok entry rest w e w' e' :
  invariant OUTSTANDING_OPS (mk_state w e (entry :: rest)) ->
  provenance OUTSTANDING_OPS sock seen (mk_state w e (entry :: rest)) ->
  process_entry send_ok recv_ok entry w e = Some (w', e') ->
  provenance OUTSTANDING_OPS sock seen (mk_state w' e' rest).
Proof.
  intros Hinv Hpv Hproc. pose proof Hpv as [H1 H2 H3 H4 H5 H6 H7 H8].
  simpl in *.
  assert (pending OUTSTANDING_OPS seen (heap e) (completion_queue e ++ rest))
    as H5'.
  { eapply pending_subset; [|exact H5]. intros x Hx.
    rewrite !elem_of_app, elem_of_cons in *. tauto. }
  apply process_entry_cases in Hproc
    as [(_ & -> & ->)|[(p & c & _ & _ & _ & -> & ->)
                      |(p & c & e1 & Hptr & Hc & Hop & -> & Hcase)]].
  - split; auto.
  - split; auto.
  - assert (p < OUTSTANDING_OPS)%nat as Hlt.
    { pose proof (inv_tags _ _ Hinv p c) as Ht. simpl in Ht.
      rewrite Hop in Ht. case_decide; [assumption|].
      discriminate Ht; [|assumption].
      unfold app_executing, pointers. simpl. rewrite Hptr.
      apply elem_of_app. right. apply elem_of_cons. auto. }
    destruct (provenance_echo_part seen send_ok entry rest w e p c e1 w'
                Hinv Hpv Hptr Hc Hlt Hcase)
      as (taken & sent & cs1 & E1 & E2 & E3 & E4 & E5 & E6 & E7 & E8 & E9
          & E10 & E11 & E12 & E13 & E14).
    split; simpl;
      rewrite ?post_recv_outstanding_recv, ?post_recv_outstanding_send,
        ?post_recv_queue, ?post_recv_wire, ?post_recv_calls.
    + assumption.
    + rewrite E1. intros q Hq. apply elem_of_app in Hq as [Hq|Hq]; [auto|].
      destruct recv_ok; [|by apply elem_of_nil in Hq].
      apply list_elem_of_singleton in Hq. by subst.
    + rewrite E2. intros q Hq. apply elem_of_app in Hq as [Hq|Hq]; auto.
    + rewrite E5. apply Forall_app. auto.
    + rewrite E4. eapply pending_heap; [|exact H5'].
      intros q c' Hq Hlook. apply post_recv_heap in Hlook
        as (c1 & Hc1 & Hb & Ha & Hl).
      exists c1. split; [by apply E10|auto].
    + rewrite E5. auto.
    + rewrite E7, !recv_posts_app, E8, E12. unfold recv_posts at 2. simpl.
      unfold fetch_add. rewrite N.Div0.add_mod_idemp_r.
      replace (N.of_nat (recv_posts (calls e) + 0 + 1))
        with (N.of_nat (recv_posts (calls e)) + 1) by lia.
      rewrite <- N.Div0.add_mod_idemp_l, H7, N.Div0.add_mod_idemp_l.
      f_equal. lia.
    + rewrite E7. repeat (apply Forall_app; split); auto.
      constructor; [|constructor]. simpl. right. by rewrite H1.
Qed.

Lemma provenance_step seen ev s s' :
  invariant OUTSTANDING_OPS s ->
  provenance OUTSTANDING_OPS sock seen s ->
  step OUTSTANDING_OPS ev s = Some s' ->
  provenance OUTSTANDING_OPS sock (seen ++ [ev]) s'.
Proof.
  intros Hinv Hpv Hstep. apply (provenance_mono _ [ev]) in Hpv.
  destruct ev as [i payload from from_len|i n| | |send_ok recv_ok];
    simpl in Hstep.
  - injection Hstep as <-. apply provenance_deliver; auto.
    apply elem_of_app. right. apply elem_of_cons. auto.
  - injection Hstep as <-. by apply provenance_complete_send.
  - injection Hstep as <-. by apply provenance_wake.
  - injection Hstep as <-. by apply provenance_dequeue.
  - destruct s as [w e es]. simpl in Hstep. destruct es as [|entry rest].
    + injection Hstep as <-. assumption.
    + destruct (process_entry send_ok recv_ok entry w e) as [[w1 e1]|] eqn:Hp;
        [|discriminate].
      injection Hstep as <-. eapply provenance_process; eauto.
Qed.

Lemma provenance_run tr : forall seen s s',
  invariant OUTSTANDING_OPS s ->
  provenance OUTSTANDING_OPS sock seen s ->
  run OUTSTANDING_OPS tr s = Some s' ->
  provenance OUTSTANDING_OPS sock (seen ++ tr) s'.
Proof.
  induction tr as [|ev tr IH]; intros seen s s' Hinv Hpv Hrun; simpl in Hrun.
  - injection Hrun as <-. by rewrite app_nil_r.
  - destruct (invariant_step OUTSTANDING_OPS ev s Hinv) as (s1 & Hs1 & Hinv1).
    rewrite Hs1 in Hrun.
    replace (seen ++ ev :: tr) with ((seen ++ [ev]) ++ tr)
      by (by rewrite <- app_assoc).
    apply (IH _ s1); auto. by apply (provenance_step _ _ s).
Qed.

(** The calls of the initial posts: one [post_recv] per Recv Context, each
    on the worker's socket. *)
Lemma post_initial_recvs_calls c oks ps e :
  recv_posts (calls (post_initial_recvs c oks ps e))
  = (recv_posts (calls e) + length ps)%nat
  /\ (Forall (fun x => call_socket x = None \/ call_socket x = Some (socket c))
             (calls e) ->
      Forall (fun x => call_socket x = None \/ call_socket x = Some (socket c))
             (calls (post_initial_recvs c oks ps e)))
  /\ wire (post_initial_recvs c oks ps e) = wire e.
Proof.
  revert oks e. induction ps as [|p ps IH]; intros oks e; simpl.
  - split; [lia|auto].
  - unfold post_recv. destruct (hd true oks); simpl.
    + match goal with |- context [post_initial_recvs c (tail oks) ps ?e1] =>
        destruct (IH (tail oks) e1) as (Hn & Hf & Hw) end.
      simpl in *. rewrite Hn, Hw, recv_posts_snoc. simpl.
      split; [lia|]. split; [|reflexivity]. intros Hall. apply Hf.
      apply Forall_app. split; [assumption|].
      constructor; [|constructor]. simpl. auto.
    + match goal with |- context [post_initial_recvs c (tail oks) ps ?e1] =>
        destruct (IH (tail oks) e1) as (Hn & Hf & Hw) end.
      unfold record_call in *. simpl in *.
      rewrite Hn, Hw, !recv_posts_snoc. simpl.
      split; [lia|]. split; [|reflexivity]. intros Hall. apply Hf.
      repeat (apply Forall_app; split); [assumption| |];
        (constructor; [|constructor]); simpl; auto.
Qed.

End Provenance.

Lemma provenance_start OUTSTANDING_OPS fresh pid sock port affinity_ok oks :
  provenance OUTSTANDING_OPS sock []
    (worker_start OUTSTANDING_OPS fresh
       (mk_worker_context pid sock port 0 0 0 0) affinity_ok oks).
Proof.
  set (c := mk_worker_context pid sock port 0 0 0 0).
  unfold worker_start.
  set (e1 := record_call _ (mk_env _ [] [] [] [] [])).
  destruct (post_initial_recvs_spec c oks (recv_contexts OUTSTANDING_OPS) e1)
    as (posted & idle & Hperm & Hr & Hs & Hq & Hlen & Hfail & Htag).
  destruct (post_initial_recvs_calls c oks (recv_contexts OUTSTANDING_OPS) e1)
    as (Hn & Hf & Hw).
  split; simpl.
  - reflexivity.
  - rewrite Hr. simpl. intros p Hp.
    assert (p ∈ recv_contexts OUTSTANDING_OPS) as Hin
        by (rewrite Hperm; apply elem_of_app; auto).
    apply elem_of_seq in Hin. lia.
  - rewrite Hs. simpl. intros p Hp. by apply elem_of_nil in Hp.
  - rewrite Hw. constructor.
  - rewrite Hq. simpl. intros entry p cx Hin. by apply elem_of_nil in Hin.
  - rewrite Hw. simpl. split; reflexivity.
  - rewrite recv_posts_snoc, Hn. simpl.
    unfold recv_contexts. rewrite length_seq. f_equal.
    destruct affinity_ok; simpl; lia.
  - apply Forall_app. split; [|constructor; [simpl; auto|constructor]].
    apply Hf. subst e1. simpl. constructor; [simpl; auto|constructor].
Qed.

(** X1. Whatever the kernel and the network do, every datagram the worker
    hands to the network is an echo: it goes out on the worker's own socket,
    is not empty, is addressed to the sender of a datagram that arrived
    before, and carries the start of that datagram's payload (all of it when
    it fitted the buffer).  The worker sends nothing of its own. *)
Theorem wire_only_echoes OUTSTANDING_OPS fresh pid sock port affinity_ok oks tr :
  exists s,
    run OUTSTANDING_OPS tr
      (worker_start OUTSTANDING_OPS fresh
         (mk_worker_context pid sock port 0 0 0 0) affinity_ok oks) = Some s
    /\ Forall (echo_of tr sock) (wire (world s)).
Proof.
  destruct (invariant_run OUTSTANDING_OPS tr _
              (invariant_start OUTSTANDING_OPS fresh
                 (mk_worker_context pid sock port 0 0 0 0) affinity_ok oks))
    as (s & Hrun & _).
  exists s. split; [assumption|].
  apply (pv_wire OUTSTANDING_OPS sock).
  eapply (provenance_run OUTSTANDING_OPS sock tr []);
    [apply invariant_start|apply provenance_start|eassumption].
Qed.

(** X2. The send counters count the wire: at every point of every run
    packets_sent is the number of datagrams handed to the network and
    bytes_sent the number of payload bytes in them, both modulo 2^64.  A Send
    that was refused is never counted and an accepted one never missed. *)
Theorem send_counters_count_wire OUTSTANDING_OPS fresh pid sock port
    affinity_ok oks tr :
  exists s,
    run OUTSTANDING_OPS tr
      (worker_start OUTSTANDING_OPS fresh
         (mk_worker_context pid sock port 0 0 0 0) affinity_ok oks) = Some s
    /\ packets_sent (ctx (wk s))
       = (N.of_nat (length (wire (world s))) mod 2 ^ 64)%N
    /\ bytes_sent (ctx (wk s)) = (wire_bytes (wire (world s)) mod 2 ^ 64)%N.
Proof.
  destruct (invariant_run OUTSTANDING_OPS tr _
              (invariant_start OUTSTANDING_OPS fresh
                 (mk_worker_context pid sock port 0 0 0 0) affinity_ok oks))
    as (s & Hrun & _).
  exists s. split; [assumption|].
  apply (pv_counts OUTSTANDING_OPS sock tr).
  eapply (provenance_run OUTSTANDING_OPS sock tr []);
    [apply invariant_start|apply provenance_start|eassumption].
Qed.

(** X3. Every Recv completion is answered by a post_recv, on every path
    through the loop body (echo sent, echo refused, no Send Context, empty
    datagram): the number of post_recv calls made is OUTSTANDING_OPS (the
    initial posts) plus packets_received, modulo 2^64.  And every post_recv
    and post_send call is made on the worker's own socket. *)
Theorem every_completion_reposted OUTSTANDING_OPS fresh pid sock port
    affinity_ok oks tr :
  exists s,
    run OUTSTANDING_OPS tr
      (worker_start OUTSTANDING_OPS fresh
         (mk_worker_context pid sock port 0 0 0 0) affinity_ok oks) = Some s
    /\ (N.of_nat (recv_posts (calls (world s))) mod 2 ^ 64)%N
       = ((N.of_nat OUTSTANDING_OPS + packets_received (ctx (wk s)))
            mod 2 ^ 64)%N
    /\ Forall (fun c => call_socket c = None \/ call_socket c = Some sock)
              (calls (world s)).
Proof.
  destruct (invariant_run OUTSTANDING_OPS tr _
              (invariant_start OUTSTANDING_OPS fresh
                 (mk_worker_context pid sock port 0 0 0 0) affinity_ok oks))
    as (s & Hrun & _).
  exists s. split; [assumption|].
  assert (provenance OUTSTANDING_OPS sock tr s) as Hpv.
  { eapply (provenance_run OUTSTANDING_OPS sock tr []);
      [apply invariant_start|apply provenance_start|eassumption]. }
  split; [apply (pv_reposts _ _ _ _ Hpv)|apply (pv_calls _ _ _ _ Hpv)].
Qed.

(** X4. A worker at rest has its pipeline full: when no post_recv has failed
    and no completion is queued or being handled, exactly OUTSTANDING_OPS
    Recv requests are outstanding, and the Send Contexts are all either on
    the free-list or in an outstanding Send. *)
Theorem worker_at_rest_is_saturated OUTSTANDING_OPS fresh pid sock port
    affinity_ok oks tr s :
  run OUTSTANDING_OPS tr
    (worker_start OUTSTANDING_OPS fresh
       (mk_worker_context pid sock port 0 0 0 0) affinity_ok oks) = Some s ->
  failed_recv_posts s = 0%nat ->
  completion_queue (world s) = [] ->
  entries s = [] ->
  length (outstanding_recv (world s)) = OUTSTANDING_OPS
  /\ (length (outstanding_send (world s))
      + length (available_send_contexts (wk s)))%nat = OUTSTANDING_OPS.
Proof.
  intros Hrun Hfail Hq Hen.
  destruct (invariant_run OUTSTANDING_OPS tr _
              (invariant_start OUTSTANDING_OPS fresh
                 (mk_worker_context pid sock port 0 0 0 0) affinity_ok oks))
    as (s1 & Hrun1 & Hinv).
  rewrite Hrun in Hrun1. injection Hrun1 as <-.
  assert (provenance OUTSTANDING_OPS sock tr s) as Hpv.
  { eapply (provenance_run OUTSTANDING_OPS sock tr []);
      [apply invariant_start|apply provenance_start|eassumption]. }
  destruct (invariant_counts OUTSTANDING_OPS s Hinv) as (_ & Hsend & Hrecv & Happ).
  pose proof Hinv as [_ _ Hfree (idle & _ & _ & Hperm)].
  assert (forall x, x ∈ kernel_owned s ++ app_free s ->
                    (x < OUTSTANDING_OPS + OUTSTANDING_OPS)%nat) as Hbound.
  { intros x Hx. apply (elem_of_seq 0 _ x). rewrite <- Hperm.
    rewrite !elem_of_app in *. tauto. }
  unfold kernel_owned, app_executing, app_free in *.
  rewrite Hq, Hen in *. simpl in *. rewrite app_nil_r in *.
  rewrite Hfail in Happ. rewrite Happ in Hrecv.
  rewrite !count_where_app in *.
  rewrite (count_where_all _ (outstanding_recv (world s))) in Hrecv.
  2: { intros x Hx. apply elem_of_seq.
       pose proof (pv_recv_side _ _ _ _ Hpv x Hx). lia. }
  rewrite (count_where_none _ (outstanding_send (world s))) in Hrecv.
  2: { intros x Hx Hr. apply elem_of_seq in Hr.
       pose proof (pv_send_side _ _ _ _ Hpv x Hx). lia. }
  rewrite (count_where_none _ (outstanding_recv (world s))) in Hsend.
  2: { intros x Hx Hr. apply elem_of_seq in Hr.
       pose proof (pv_recv_side _ _ _ _ Hpv x Hx). lia. }
  rewrite (count_where_all _ (outstanding_send (world s))) in Hsend.
  2: { intros x Hx. apply elem_of_seq.
       pose proof (pv_send_side _ _ _ _ Hpv x Hx).
       assert (x < OUTSTANDING_OPS + OUTSTANDING_OPS)%nat
         by (apply Hbound; rewrite !elem_of_app; tauto). lia. }
  rewrite (count_where_all _ (available_send_contexts (wk s))) in Hsend.
  2: { intros x Hx. apply elem_of_seq. pose proof (Hfree x Hx).
       assert (x < OUTSTANDING_OPS + OUTSTANDING_OPS)%nat
         by (apply Hbound; rewrite !elem_of_app; tauto). lia. }
  unfold count_where in Hsend. simpl in Hsend. lia.
Qed.

Lemma worker_at_rest_is_saturated_witness :
  exists s,
    run 2 (echo_cycle ++ echo_cycle)
        (worker_start 2 fresh_context cpu0 true []) = Some s
    /\ length (wire (world s)) = 2%nat
    /\ length (outstanding_recv (world s)) = 2%nat
    /\ (length (outstanding_send (world s))
        + length (available_send_contexts (wk s)))%nat = 2%nat.
Proof.
  eexists. split; [vm_compute; reflexivity|]. split; [reflexivity|].
  apply (worker_at_rest_is_saturated 2 fresh_context 0%N 7%Z 9%Z true []
           (echo_cycle ++ echo_cycle));
    vm_compute; reflexivity.
Defined.

(** ** main: what becomes of each endpoint *)

Section Endpoints.

Local Open Scope Z_scope.

(** X5. A worker index is retained exactly when a socket could be created
    (IPv6 or else IPv4), the bind succeeded and the completion port could be
    created.  Failing to set the CPU affinity or the buffer sizes changes
    nothing about which worker is recorded. *)
Theorem endpoint_retained_iff i port recvbuf k :
  (is_Some (snd (create_endpoint i port recvbuf k))
   <-> (is_Some (socket_v6 k) \/ is_Some (socket_v4 k))
       /\ bind_ok k = true /\ is_Some (iocp_created k))
  /\ (forall a r s,
        snd (create_endpoint i port recvbuf (with_warnings a r s k))
        = snd (create_endpoint i port recvbuf k)).
Proof.
  unfold create_endpoint, finish_endpoint, with_warnings.
  destruct k as [s6 s4 v0 clr aff rb sb bnd io]; simpl. split.
  - destruct s6 as [sock6|], s4 as [sock4|], bnd, io as [h|]; simpl;
      rewrite <- ?not_eq_None_Some; split;
      try (intros _; split_and!; eauto; congruence);
      try (intros Hn; exfalso; by apply Hn);
      try (intros (H1 & H2 & H3); first [discriminate|destruct H1; congruence|congruence]);
      try (intros; congruence).
  - intros a r s.
    destruct s6 as [sock6|], s4 as [sock4|], bnd, io as [h|]; reflexivity.
Qed.

(** One index: the socket created is closed again or kept by the worker. *)
Lemma endpoint_sockets i port recvbuf k :
  created_sockets (fst (create_endpoint i port recvbuf k))
  = closed_sockets (fst (create_endpoint i port recvbuf k))
      ++ match snd (create_endpoint i port recvbuf k) with
         | Some ep => [socket (ep_ctx ep)]
         | None => []
         end.
Proof.
  unfold create_endpoint, finish_endpoint.
  destruct (socket_v6 k), (socket_v4 k), (bind_ok k), (iocp_created k);
    reflexivity.
Qed.

Lemma created_sockets_app a b :
  created_sockets (a ++ b) = created_sockets a ++ created_sockets b.
Proof. apply omap_app. Qed.

Lemma closed_sockets_app a b :
  closed_sockets (a ++ b) = closed_sockets a ++ closed_sockets b.
Proof. apply omap_app. Qed.

Lemma endpoints_sockets n port recvbuf envs :
  created_sockets (concat (map fst (create_endpoints n port recvbuf envs)))
  ≡ₚ closed_sockets (concat (map fst (create_endpoints n port recvbuf envs)))
     ++ map (fun ep => socket (ep_ctx ep))
            (omap snd (create_endpoints n port recvbuf envs)).
Proof.
  unfold create_endpoints.
  induction (seq 0 (Z.to_nat n)) as [|j l IH]; simpl; [reflexivity|].
  rewrite created_sockets_app, closed_sockets_app, endpoint_sockets, IH.
  destruct (snd (create_endpoint _ _ _ _)); simpl; solve_Permutation.
Qed.

(** X6. No socket is lost while [main] builds its workers: whatever fails
    along the way, each socket created is either closed again or held by one
    of the workers [main] goes on to serve with; when [main] gives up, every
    socket it created has been closed. *)
Theorem no_socket_lost help port_str cores_str recvbuf_str num_processors
    winsock_ok envs :
  let r := main help port_str cores_str recvbuf_str num_processors winsock_ok
                envs in
  created_sockets (snd r) ≡ₚ closed_sockets (snd r) ++ held_sockets (fst r).
Proof.
  unfold main. destruct help; [reflexivity|].
  destruct (string_empty port_str); [reflexivity|].
  destruct ((atoi port_str <=? 0) || (65535 <? atoi port_str)); [reflexivity|].
  destruct (negb winsock_ok); [reflexivity|].
  pose proof (endpoints_sockets (num_workers cores_str num_processors)
                (atoi port_str) (parse_recvbuf recvbuf_str) envs) as Hs.
  destruct (omap snd _) as [|ep ws] eqn:Hw; simpl in *; exact Hs.
Qed.

Lemma length_omap_le {A B} (f : A -> option B) (l : list A) :
  (length (omap f l) <= length l)%nat.
Proof.
  induction l as [|a l IH]; csimpl; [lia|]. destruct (f a); csimpl; lia.
Qed.

(** X7. How [main] can end before serving, and what serving means.  It
    exits with 0 only for --help and with 1 otherwise; it touches no socket
    unless help is off, the port string reads as a number from 1 to 65535 and
    Winsock came up; and when it serves, it serves on that port with at
    least one worker and no more workers than it set out to build. *)
Theorem main_outcomes help port_str cores_str recvbuf_str num_processors
    winsock_ok envs :
  let r := main help port_str cores_str recvbuf_str num_processors winsock_ok
                envs in
  (forall code, fst r = Exit code ->
     (code = 0 /\ help = true) \/ (code = 1 /\ help = false))
  /\ (snd r <> [] ->
      help = false /\ 1 <= atoi port_str <= 65535 /\ winsock_ok = true)
  /\ (forall port workers, fst r = Serving port workers ->
        help = false /\ port = atoi port_str /\ 1 <= port <= 65535
        /\ winsock_ok = true /\ workers <> []
        /\ (Z.of_nat (length workers)
            <= Z.max 0 (num_workers cores_str num_processors))).
Proof.
  unfold main. destruct help.
  { simpl. split_and!; [intros code [= <-]; auto|congruence|discriminate]. }
  destruct (string_empty port_str).
  { simpl. split_and!; [intros code [= <-]; auto|congruence|discriminate]. }
  destruct ((atoi port_str <=? 0) || (65535 <? atoi port_str)) eqn:Hport.
  { simpl. split_and!; [intros code [= <-]; auto|congruence|discriminate]. }
  apply orb_false_iff in Hport as [Hlo Hhi].
  apply Z.leb_gt in Hlo. apply Z.ltb_ge in Hhi.
  destruct winsock_ok; simpl.
  2: { split_and!; [intros code [= <-]; auto|congruence|discriminate]. }
  set (built := create_endpoints _ _ _ envs).
  assert (Z.of_nat (length (omap snd built))
          <= Z.max 0 (num_workers cores_str num_processors)) as Hlen.
  { pose proof (length_omap_le snd built) as Hle.
    assert (length built = Z.to_nat (num_workers cores_str num_processors))
      as Hb by (unfold built, create_endpoints;
                by rewrite length_map, length_seq).
    lia. }
  destruct (omap snd built) as [|ep ws] eqn:Hw; simpl.
  - split_and!; [intros code [= <-]; auto| |discriminate].
    intros _. split_and!; auto; lia.
  - split_and!; [discriminate| |].
    + intros _. split_and!; auto; lia.
    + intros port workers [= <- <-]. split_and!; auto; try lia; discriminate.
Qed.

(** The worker recorded for index [i] carries [i] and fresh counters. *)
Lemma endpoint_identity i port recvbuf k ep :
  snd (create_endpoint i port recvbuf k) = Some ep ->
  processor_id (ep_ctx ep) = Z.to_N i
  /\ packets_received (ep_ctx ep) = 0%N /\ packets_sent (ep_ctx ep) = 0%N
  /\ bytes_received (ep_ctx ep) = 0%N /\ bytes_sent (ep_ctx ep) = 0%N.
Proof.
  unfold create_endpoint, finish_endpoint.
  destruct (socket_v6 k), (socket_v4 k), (bind_ok k), (iocp_created k); simpl;
    intros [= <-]; auto.
Qed.

Lemma workers_of_indices port recvbuf envs n : forall a,
  let ws :=
    omap snd
      (map (fun i : nat =>
              create_endpoint (Z.of_nat i) port recvbuf (envs (Z.of_nat i)))
           (seq a n)) in
  StronglySorted N.lt (map (fun ep => processor_id (ep_ctx ep)) ws)
  /\ Forall (fun ep =>
               (N.of_nat a <= processor_id (ep_ctx ep) < N.of_nat (a + n))%N
               /\ snd (create_endpoint (Z.of_N (processor_id (ep_ctx ep))) port
                         recvbuf (envs (Z.of_N (processor_id (ep_ctx ep)))))
                  = Some ep
               /\ packets_received (ep_ctx ep) = 0%N
               /\ packets_sent (ep_ctx ep) = 0%N
               /\ bytes_received (ep_ctx ep) = 0%N
               /\ bytes_sent (ep_ctx ep) = 0%N) ws.
Proof.
  induction n as [|n IH]; intros a; simpl; [split; constructor|].
  destruct (IH (S a)) as [Hsorted Hall]. simpl in *.
  destruct (snd (create_endpoint (Z.of_nat a) port recvbuf (envs (Z.of_nat a))))
    as [ep0|] eqn:Hep; simpl.
  - destruct (endpoint_identity _ _ _ _ _ Hep) as (Hid & Hc).
    assert (processor_id (ep_ctx ep0) = N.of_nat a) as Hid' by lia.
    split.
    + constructor; [assumption|]. apply Forall_map.
      eapply Forall_impl; [exact Hall|]. simpl. intros ep (Hb & _). lia.
    + constructor.
      * split; [lia|]. split; [|assumption].
        rewrite Hid', nat_N_Z. exact Hep.
      * eapply Forall_impl; [exact Hall|]. simpl.
        intros ep (Hb & Hrest). split; [lia|assumption].
  - split; [assumption|].
    eapply Forall_impl; [exact Hall|]. simpl.
    intros ep (Hb & Hrest). split; [lia|assumption].
Qed.

(** X8. One worker per processor: the workers [main] serves with carry
    strictly increasing processor ids below the number of workers it set out
    to build, each is the endpoint built for its own index, and each starts
    with all four counters at zero. *)
Theorem workers_by_processor help port_str cores_str recvbuf_str num_processors
    winsock_ok envs port workers :
  fst (main help port_str cores_str recvbuf_str num_processors winsock_ok envs)
  = Serving port workers ->
  StronglySorted N.lt (map (fun ep => processor_id (ep_ctx ep)) workers)
  /\ Forall (fun ep =>
               Z.of_N (processor_id (ep_ctx ep))
               < num_workers cores_str num_processors
               /\ snd (create_endpoint (Z.of_N (processor_id (ep_ctx ep))) port
                         (parse_recvbuf recvbuf_str)
                         (envs (Z.of_N (processor_id (ep_ctx ep)))))
                  = Some ep
               /\ packets_received (ep_ctx ep) = 0%N
               /\ packets_sent (ep_ctx ep) = 0%N
               /\ bytes_received (ep_ctx ep) = 0%N
               /\ bytes_sent (ep_ctx ep) = 0%N) workers.
Proof.
  unfold main. destruct help; [discriminate|].
  destruct (string_empty port_str); [discriminate|].
  destruct ((atoi port_str <=? 0) || (65535 <? atoi port_str)); [discriminate|].
  destruct (negb winsock_ok); [discriminate|]. simpl.
  pose proof (workers_of_indices (atoi port_str) (parse_recvbuf recvbuf_str)
                envs (Z.to_nat (num_workers cores_str num_processors)) 0)
    as [Hsorted Hall].
  unfold create_endpoints. simpl in *.
  destruct (omap snd _) as [|ep ws]; [discriminate|].
  intros [= <- <-]. split; [assumption|].
  eapply Forall_impl; [exact Hall|]. simpl.
  intros ep0 (Hb & Hrest). split; [lia|assumption].
Qed.

Lemma workers_by_processor_witness :
  StronglySorted N.lt
    (map (fun ep => processor_id (ep_ctx ep))
         [mk_endpoint (mk_worker_context 0 100 200 0 0 0 0) AF_INET6 true true;
          mk_endpoint (mk_worker_context 1 100 200 0 0 0 0) AF_INET6 true true])
  /\ Forall (fun ep =>
               Z.of_N (processor_id (ep_ctx ep)) < num_workers "2" 8
               /\ snd (create_endpoint (Z.of_N (processor_id (ep_ctx ep))) 9000
                         (parse_recvbuf "")
                         (v6only_stuck))
                  = Some ep
               /\ packets_received (ep_ctx ep) = 0%N
               /\ packets_sent (ep_ctx ep) = 0%N
               /\ bytes_received (ep_ctx ep) = 0%N
               /\ bytes_sent (ep_ctx ep) = 0%N)
       [mk_endpoint (mk_worker_context 0 100 200 0 0 0 0) AF_INET6 true true;
        mk_endpoint (mk_worker_context 1 100 200 0 0 0 0) AF_INET6 true true].
Proof.
  apply (workers_by_processor false "9000" "2" "" 8 true (fun _ => v6only_stuck)).
  reflexivity.
Defined.

(** X9. Whatever the --cores string holds (a number, a negative number,
    text): the number of workers [main] sets out to build is never more than
    the processor count, is at least one when there is a processor, and is
    the processor count when the string reads as a negative number. *)
Theorem worker_count_bounds cores_str num_processors :
  0 <= num_processors < 2 ^ 32 ->
  0 <= num_workers cores_str num_processors <= num_processors
  /\ (1 <= num_processors -> 1 <= num_workers cores_str num_processors)
  /\ (atoi cores_str < 0 ->
      num_workers cores_str num_processors = num_processors).
Proof.
  intros Hnp. unfold num_workers.
  pose proof (strtol_range cores_str) as Hr. fold (atoi cores_str) in Hr.
  destruct (string_empty cores_str); [lia|].
  destruct (0 <? atoi cores_str) eqn:Hpos; simpl.
  - apply Z.ltb_lt in Hpos. rewrite to_uint32_small by lia.
    destruct (atoi cores_str <=? num_processors) eqn:Hle; [|lia].
    apply Z.leb_le in Hle. lia.
  - apply Z.ltb_ge in Hpos. lia.
Qed.

Lemma worker_count_bounds_witness :
  0 <= num_workers "-3" 8 <= 8
  /\ (1 <= 8 -> 1 <= num_workers "-3" 8)
  /\ (atoi "-3" < 0 -> num_workers "-3" 8 = 8).
Proof. apply (worker_count_bounds "-3" 8). vm_compute. split; congruence. Defined.

(** The bind of one endpoint: made on the socket created for it, in that
    socket's family, on the port given (as 16 bits). *)
Lemma endpoint_bind i port recvbuf k s af p ok :
  In (Bind s af p ok) (fst (create_endpoint i port recvbuf k)) ->
  p = port mod 2 ^ 16
  /\ In (CreateUdpSocket af (Some s)) (fst (create_endpoint i port recvbuf k)).
Proof.
  unfold create_endpoint, finish_endpoint.
  destruct (socket_v6 k), (socket_v4 k), (bind_ok k), (iocp_created k),
    (clear_v6only_ok k); simpl; intros Hin;
    repeat (destruct Hin as [Hin|Hin]; try discriminate);
    try contradiction; injection Hin as <- <- <- <-; auto.
Qed.

(** X10. Every bind [main] makes is on the very port the user asked for (the
    16-bit conversion loses nothing, the port having been checked), on a
    socket [main] created, and in the address family that socket was created
    in: an IPv6 socket is bound to the IPv6 wildcard, an IPv4 socket to the
    IPv4 wildcard. *)
Theorem binds_match_socket help port_str cores_str recvbuf_str num_processors
    winsock_ok envs s af p ok :
  let calls := snd (main help port_str cores_str recvbuf_str num_processors
                         winsock_ok envs) in
  In (Bind s af p ok) calls ->
  p = atoi port_str /\ 1 <= p <= 65535
  /\ In (CreateUdpSocket af (Some s)) calls.
Proof.
  unfold main. destruct help; [contradiction|].
  destruct (string_empty port_str); [contradiction|].
  destruct ((atoi port_str <=? 0) || (65535 <? atoi port_str)) eqn:Hport;
    [contradiction|].
  apply orb_false_iff in Hport as [Hlo Hhi].
  apply Z.leb_gt in Hlo. apply Z.ltb_ge in Hhi.
  destruct (negb winsock_ok); [contradiction|]. simpl.
  set (built := create_endpoints _ _ _ envs).
  intros Hin.
  assert (In (Bind s af p ok) (concat (map fst built))) as Hin'
      by (destruct (omap snd built); exact Hin).
  apply in_concat in Hin' as (cs & Hcs & Hb).
  unfold built, create_endpoints in Hcs. rewrite map_map in Hcs.
  apply in_map_iff in Hcs as (j & <- & Hj).
  apply endpoint_bind in Hb as [-> Hc].
  assert (atoi port_str mod 2 ^ 16 = atoi port_str) as ->
      by (apply Z.mod_small; lia).
  split; [reflexivity|]. split; [lia|].
  assert (In (CreateUdpSocket af (Some s)) (concat (map fst built))) as Hc'.
  { apply in_concat. eexists. split; [|exact Hc].
    unfold built, create_endpoints. rewrite map_map.
    apply in_map_iff. exists j. split; [reflexivity|exact Hj]. }
  destruct (omap snd built); exact Hc'.
Qed.

Lemma binds_match_socket_witness :
  9000 = atoi "9000" /\ 1 <= 9000 <= 65535
  /\ In (CreateUdpSocket AF_INET6 (Some 100))
        (snd (main false "9000" "1" "" 8 true (fun _ => v6only_stuck))).
Proof.
  apply (binds_match_socket false "9000" "1" "" 8 true (fun _ => v6only_stuck)
           100 AF_INET6 9000 true).
  vm_compute. tauto.
Defined.

End Endpoints.

(** ** The free-list as a stack *)

(** X11. The free-list is last-in first-out: when the worker handles a Send
    completion and then a Recv completion carrying data, the echo goes out
    on the Send Context that has just come back; after an accepted Send the
    free-list is what it was before the two completions, after a refused one
    it has the returned context on top. *)
Theorem freed_send_context_reused_first a b send_ok recv_ok done arrived w e
    p c q cq :
  lpOverlapped done = Some p ->
  heap e !! p = Some c ->
  operation c = send ->
  lpOverlapped arrived = Some q ->
  heap e !! q = Some cq ->
  operation cq = recv ->
  (0 < dwNumberOfBytesTransferred arrived)%N ->
  exists w1 w2 e2,
    process_entry a b done w e = Some (w1, e)
    /\ ctx w1 = ctx w
    /\ process_entry send_ok recv_ok arrived w1 e = Some (w2, e2)
    /\ calls e2
       = calls e
           ++ [PostSend (socket (ctx w)) p (buffer cq)
                        (dwNumberOfBytesTransferred arrived)
                        (remote_addr cq) (remote_addr_len cq) send_ok;
               PostRecv (socket (ctx w)) q recv_ok]
    /\ available_send_contexts w2
       = if send_ok then available_send_contexts w
         else available_send_contexts w ++ [p].
Proof.
  intros Hp Hc Hop Hq Hcq Hopq Hn.
  exists (mk_worker (ctx w) (push_back (available_send_contexts w) p)).
  assert (process_entry a b done w e
          = Some (mk_worker (ctx w) (push_back (available_send_contexts w) p), e))
    as H1 by (unfold process_entry; by rewrite Hp, Hc, Hop).
  assert (back (push_back (available_send_contexts w) p) = Some p) as Hb
      by (unfold back, push_back; apply last_snoc).
  pose proof (process_entry_echo send_ok recv_ok arrived
                (mk_worker (ctx w) (push_back (available_send_contexts w) p))
                e q cq p Hq Hcq Hopq Hn Hb) as H2.
  simpl in H2.
  eexists _, _. split; [exact H1|]. split; [reflexivity|].
  split; [exact H2|].
  rewrite post_recv_calls. unfold post_send, push_back, pop_back. simpl.
  rewrite removelast_last.
  destruct send_ok; simpl; rewrite <- app_assoc; auto.
Qed.

Lemma freed_send_context_reused_first_witness :
  exists w1 w2 e2,
    process_entry true true (mk_entry 0 (Some 1%nat) 5)
      (mk_worker cpu0 [])
      (mk_env [mk_io_context recv (hello ++ repeat x00 3) peer 4;
               mk_io_context send hello peer 4] [] [] [] [] [])
    = Some (w1, mk_env [mk_io_context recv (hello ++ repeat x00 3) peer 4;
                        mk_io_context send hello peer 4] [] [] [] [] [])
    /\ ctx w1 = cpu0
    /\ process_entry true true sample_entry w1
         (mk_env [mk_io_context recv (hello ++ repeat x00 3) peer 4;
                  mk_io_context send hello peer 4] [] [] [] [] [])
       = Some (w2, e2)
    /\ calls e2
       = [] ++ [PostSend 7%Z 1%nat (hello ++ repeat x00 3) 5 peer 4%Z true;
                PostRecv 7%Z 0%nat true]
    /\ available_send_contexts w2 = [].
Proof.
  apply (freed_send_context_reused_first true true true true
           (mk_entry 0 (Some 1%nat) 5) sample_entry (mk_worker cpu0 [])
           (mk_env [mk_io_context recv (hello ++ repeat x00 3) peer 4%Z;
                    mk_io_context send hello peer 4%Z] [] [] [] [] [])
           1%nat (mk_io_context send hello peer 4%Z)
           0%nat (mk_io_context recv (hello ++ repeat x00 3) peer 4%Z));
    reflexivity.
Defined.

(** ** The digest *)

Section Digest.

Import TDigest TDigestRest.
Local Open Scope float_scope.

Lemma insert_by_value_perm p l : insert_by_value p l ≡ₚ p :: l.
Proof.
  induction l as [|q l IH]; simpl; [done|].
  destruct (fst q <? fst p); [|done].
  rewrite IH. apply Permutation_swap.
Qed.

Lemma sort_by_value_perm l : sort_by_value l ≡ₚ l.
Proof.
  induction l as [|p l IH]; simpl; [done|].
  by rewrite insert_by_value_perm, IH.
Qed.

Lemma merged_view_values d : fst <$> merged_view d ≡ₚ stored_values d.
Proof.
  unfold merged_view, stored_values.
  assert (fst <$> (map (fun c => (mean c, weight c)) (centroids_ d)
                     ++ map (fun v => (v, 1)) (buffer_ d))
          = map mean (centroids_ d) ++ buffer_ d) as E.
  { rewrite fmap_app. f_equal.
    - induction (centroids_ d); simpl; [done|]. by f_equal.
    - induction (buffer_ d); simpl; [done|]. by f_equal. }
  destruct (buffer_ d) eqn:Hb; rewrite <- ?Hb in *.
  - by rewrite E.
  - by rewrite sort_by_value_perm, E.
Qed.

Lemma merged_view_length d : length (merged_view d) = buckets d.
Proof.
  rewrite <- (length_fmap fst), (Permutation_length (merged_view_values d)).
  unfold stored_values, buckets. by rewrite length_app, length_map.
Qed.

Lemma walk_elem_of target c m v : walk target c m = Some v -> v ∈ fst <$> m.
Proof.
  intros Hw. destruct (walk_index_Some _ _ _ _ Hw) as (i & w & _ & Hl & _).
  apply list_elem_of_lookup_2 in Hl.
  by apply (list_elem_of_fmap_2 fst) in Hl.
Qed.

(** X13. [percentile] hands out a value the digest holds: for q in [0,1], on
    a digest with positive total weight and at least one bucket, the result
    is the mean of one of its centroids or one of its buffered points, never
    a value computed from them ([std::sort] taken as a sort that permutes
    its input). *)
Theorem percentile_is_a_stored_value q d :
  in_unit_interval q = true ->
  (total_weight_ d <=? 0) = false ->
  buckets d <> 0%nat ->
  exists v, percentile q d = Value v /\ v ∈ stored_values d.
Proof.
  intros Hq Hw Hne. unfold in_unit_interval in Hq.
  unfold percentile. rewrite Hq, Hw. simpl.
  rewrite <- merged_view_length in Hne.
  setoid_rewrite <- (merged_view_values d).
  destruct (merged_view d) as [|b m] eqn:Hm; [done|]. rewrite <- Hm.
  destruct (walk (q * total_weight_ d) 0 (merged_view d)) as [v|] eqn:Hwalk.
  - exists v. split; [done|]. by apply walk_elem_of in Hwalk.
  - destruct (last (merged_view d)) as [[v w]|] eqn:Hlast.
    + exists v. split; [done|]. apply last_Some_elem_of in Hlast.
      by apply (list_elem_of_fmap_2 fst) in Hlast.
    + apply last_None in Hlast. rewrite Hm in Hlast. discriminate.
Qed.

Lemma percentile_is_a_stored_value_witness :
  exists v, percentile 0.75 two_points = Value v
            /\ v ∈ stored_values two_points.
Proof.
  apply (percentile_is_a_stored_value 0.75 two_points);
    [reflexivity|reflexivity|discriminate].
Defined.

(** X14. What [percentile] does without an estimate to give.  On every
    digest a q outside [0,1], a NaN q among them, is thrown out.  After
    [reset], and on any digest that holds no centroid and no buffered point,
    it returns NaN for every q in [0,1], whatever the total weight says, and
    throws for every other q. *)
Theorem percentile_of_empty q d :
  percentile nan d = invalid_argument "q must be in [0,1]"
  /\ (in_unit_interval q = false ->
      percentile q d = invalid_argument "q must be in [0,1]")
  /\ percentile q (reset d)
     = (if in_unit_interval q then Value nan
        else invalid_argument "q must be in [0,1]")
  /\ (buckets d = 0%nat ->
      percentile q d
      = (if in_unit_interval q then Value nan
         else invalid_argument "q must be in [0,1]")
      /\ percentile q (reset d) = percentile q d).
Proof.
  assert (forall d', centroids_ d' = [] -> buffer_ d' = [] ->
            percentile q d'
            = if in_unit_interval q then Value nan
              else invalid_argument "q must be in [0,1]") as E.
  { intros d' Hc' Hb'. unfold percentile, merged_view, in_unit_interval.
    rewrite Hc', Hb'. simpl.
    destruct ((0 <=? q) && (q <=? 1))%bool; simpl; [|done].
    by destruct (total_weight_ d' <=? 0). }
  split_and!.
  - reflexivity.
  - unfold in_unit_interval, percentile. by intros ->.
  - by apply E.
  - intros He. unfold buckets in He.
    destruct (centroids_ d) eqn:Hc; [|discriminate].
    destruct (buffer_ d) eqn:Hb; [|discriminate].
    by rewrite (E d), (E (reset d)).
Qed.

Lemma percentile_of_empty_witness :
  percentile 0.5 (reset two_points) = Value nan
  /\ percentile 0.5 (reset (reset two_points))
     = percentile 0.5 (reset two_points).
Proof.
  apply (proj2 (proj2 (proj2 (percentile_of_empty 0.5 (reset two_points))))).
  reflexivity.
Defined.

Lemma insert_by_value_length p l :
  length (insert_by_value p l) = S (length l).
Proof. by rewrite (Permutation_length (insert_by_value_perm p l)). Qed.

Lemma sort_by_value_length l : length (sort_by_value l) = length l.
Proof. by rewrite (Permutation_length (sort_by_value_perm l)). Qed.

Lemma build_loop_length k m w rest :
  (1 <= length (build_loop k m w rest) <= S (length rest))%nat.
Proof.
  revert m w. induction rest as [|[v w'] rest IH]; intros m w; simpl; [lia|].
  destruct (w + w' <=? _).
  - specialize (IH ((m * w + v * w') / (w + w')) (w + w')). lia.
  - specialize (IH v w'). simpl. lia.
Qed.

Lemma build_from_length c merged :
  (length (build_from c merged) <= length merged)%nat
  /\ (merged = [] <-> build_from c merged = []).
Proof.
  destruct merged as [|[v w] rest]; simpl; [by split|].
  pose proof (build_loop_length
                (4 * fold_left (fun sum p => sum + snd p) rest (0 + w) / c)
                v w rest) as H.
  split; [lia|]. split; [done|]. intros E. rewrite E in H. simpl in H. lia.
Qed.

Lemma compress_empty d :
  buckets d = 0%nat -> compress d = d /\ buffer_ d = [] /\ centroids_ d = [].
Proof.
  unfold buckets, compress. intros He.
  destruct (centroids_ d); [|discriminate].
  destruct (buffer_ d); [|discriminate]. done.
Qed.

Lemma compress_nonempty d :
  buckets d <> 0%nat ->
  compress d
  = mk (compression_ d) []
       (build_from (compression_ d)
          (sort_by_value
             (map (fun v => (v, 1)) (buffer_ d)
                ++ map (fun c => (mean c, weight c)) (centroids_ d))))
       (total_weight_ d).
Proof.
  unfold buckets, compress. intros He.
  destruct (buffer_ d); [|done]. destruct (centroids_ d); done.
Qed.

Lemma compress_keeps d :
  buffer_ (compress d) = [] /\ total_weight_ (compress d) = total_weight_ d.
Proof.
  destruct (decide (buckets d = 0%nat)) as [He|Hne].
  - by destruct (compress_empty d He) as (-> & Hb & Hc).
  - by rewrite (compress_nonempty d Hne).
Qed.

(** X15. [compress] folds everything into centroids: afterwards the buffer
    is empty, compression and total weight are untouched, there are no more
    centroids than there were centroids and buffered points together, and
    there is no centroid exactly when the digest held nothing. *)
Theorem compress_bounds d :
  buffer_ (compress d) = []
  /\ compression_ (compress d) = compression_ d
  /\ total_weight_ (compress d) = total_weight_ d
  /\ (length (centroids_ (compress d)) <= buckets d)%nat
  /\ (buckets d = 0%nat <-> centroids_ (compress d) = []).
Proof.
  destruct (decide (buckets d = 0%nat)) as [He|Hne].
  - destruct (compress_empty d He) as (-> & Hb & Hc).
    rewrite Hb, Hc. simpl. split_and!; try done; lia.
  - rewrite (compress_nonempty d Hne). simpl.
    set (merged := _ ++ _).
    assert (length (sort_by_value merged) = buckets d) as Hlen.
    { rewrite sort_by_value_length. unfold merged, buckets.
      rewrite length_app, !length_map. lia. }
    destruct (build_from_length (compression_ d) (sort_by_value merged))
      as [Hle Hiff].
    split_and!; [done|done|done|lia|].
    rewrite <- Hiff, <- Hlen.
    destruct (sort_by_value merged); simpl; split; done.
Qed.

(** X16. [merge] takes in the other digest: afterwards the buffer is empty,
    the compression is the receiver's, the total weight is the sum of the
    two, there are no more centroids than the two digests held centroids and
    buffered points together, and there is no centroid exactly when both
    held nothing. *)
Theorem merge_bounds other d :
  buffer_ (merge other d) = []
  /\ compression_ (merge other d) = compression_ d
  /\ total_weight (merge other d) = total_weight d + total_weight other
  /\ (length (centroids_ (merge other d)) <= buckets d + buckets other)%nat
  /\ ((buckets d + buckets other)%nat = 0%nat
      <-> centroids_ (merge other d) = []).
Proof.
  unfold merge, buckets, total_weight. simpl.
  set (merged := _ ++ _ ++ _ ++ _).
  assert (length (sort_by_value merged)
          = (length (centroids_ d) + length (buffer_ d)
             + (length (centroids_ other) + length (buffer_ other)))%nat)
    as Hlen.
  { rewrite sort_by_value_length. unfold merged.
    rewrite !length_app, !length_map. lia. }
  destruct (build_from_length (compression_ d) (sort_by_value merged))
    as [Hle Hiff].
  split_and!; [done|done|done|lia|].
  rewrite <- Hiff, <- Hlen. destruct (sort_by_value merged); simpl; split; done.
Qed.

Lemma insert_by_value_Forall (P : float * float -> Prop) p l :
  P p -> Forall P l -> Forall P (insert_by_value p l).
Proof.
  intros Hp Hl. induction Hl as [|q l Hq Hl IH]; simpl.
  - by constructor.
  - destruct (fst q <? fst p); repeat constructor; auto.
Qed.

Lemma sorted_points_weights d : Forall (fun p => snd p = 1) (sorted_points d).
Proof.
  unfold sorted_points. induction (buffer_ d) as [|v l IH]; simpl.
  - constructor.
  - by apply insert_by_value_Forall.
Qed.

Lemma build_loop_apart k v rest :
  (1 <? k) = false ->
  Forall (fun p => snd p = 1) rest ->
  build_loop k v 1 rest
  = map (fun p => mk_centroid (fst p) 1) ((v, 1) :: rest).
Proof.
  intros Hk Hall. revert v.
  induction Hall as [|[v' w'] rest Hw Hall IH]; intros v; simpl; [done|].
  simpl in Hw. subst w'. rewrite Hk.
  replace (1 + 1 <=? 1) with false by reflexivity.
  by rewrite IH.
Qed.

Lemma unit_weights_view (l : list (float * float)) :
  Forall (fun p => snd p = 1) l ->
  map (fun c => (mean c, weight c)) (map (fun p => mk_centroid (fst p) 1) l)
  = l.
Proof.
  induction 1 as [|[v w] l Hw Hall IH]; simpl; [done|].
  simpl in Hw. subst w. by rewrite IH.
Qed.

(** Items of weight 1 add up to the same total in any order. *)
Lemma unit_weights_total (l l' : list (float * float)) a :
  Forall (fun p => snd p = 1) l ->
  Forall (fun p => snd p = 1) l' ->
  length l = length l' ->
  fold_left (fun sum p => sum + snd p) l a
  = fold_left (fun sum p => sum + snd p) l' a.
Proof.
  intros Hl. revert l' a.
  induction Hl as [|[v w] l Hw Hl IH]; intros [|[v' w'] l'] a Hl' Hlen;
    simpl in *; try discriminate; [done|].
  inversion Hl' as [|? ? Hw' Hl'']; subst. simpl in *. subst.
  apply IH; [assumption|lia].
Qed.

Lemma buffer_weights (b : list float) :
  Forall (fun p : float * float => snd p = 1) (map (fun v => (v, 1)) b).
Proof. induction b; simpl; constructor; auto. Qed.

(** X17. While the digest is small against its compression, [compress]
    loses nothing: on a digest of buffered points only whose k_limit
    (4 * total / compression) does not exceed 1, the centroids are the
    buffered points, each with weight 1 and the point as mean, rearranged,
    and [percentile] answers every q after [compress] as it did before. *)
Theorem compress_is_exact_while_small q d :
  centroids_ d = [] ->
  (1 <? k_limit (compression_ d) (map (fun v => (v, 1)) (buffer_ d))) = false ->
  centroids_ (compress d) ≡ₚ map (fun v => mk_centroid v 1) (buffer_ d)
  /\ merged_view (compress d) = merged_view d
  /\ percentile q (compress d) = percentile q d.
Proof.
  intros Hc Hk'.
  pose proof (sorted_points_weights d) as Hall.
  assert ((1 <? k_limit (compression_ d) (sorted_points d)) = false) as Hk.
  { unfold k_limit in *.
    rewrite (unit_weights_total (sorted_points d)
               (map (fun v => (v, 1)) (buffer_ d)) 0 Hall
               (buffer_weights (buffer_ d))); [exact Hk'|].
    unfold sorted_points. apply sort_by_value_length. }
  assert (centroids_ (compress d)
          = map (fun p => mk_centroid (fst p) 1) (sorted_points d)) as E1.
  { unfold compress, sorted_points in *. rewrite Hc in *.
    destruct (buffer_ d) as [|x l] eqn:Hb; [by rewrite Hc|].
    rewrite <- Hb in *. simpl. rewrite app_nil_r.
    unfold build_from, k_limit in *.
    destruct (sort_by_value (map (fun v => (v, 1)) (buffer_ d)))
      as [|[v w] rest] eqn:Hs; [done|].
    inversion Hall as [|? ? Hw Hrest]; subst. simpl in Hw. subst w.
    by apply build_loop_apart. }
  assert (merged_view (compress d) = merged_view d) as E2.
  { unfold merged_view at 1. rewrite E1.
    destruct (compress_keeps d) as (-> & _). simpl. rewrite app_nil_r.
    rewrite (unit_weights_view _ Hall).
    unfold merged_view, sorted_points. rewrite Hc. simpl.
    by destruct (buffer_ d). }
  split_and!; [|done|].
  - rewrite E1. unfold sorted_points.
    rewrite (sort_by_value_perm (map (fun v => (v, 1)) (buffer_ d))).
    by rewrite map_map.
  - unfold percentile. rewrite E2.
    by destruct (compress_keeps d) as (_ & ->).
Qed.

Lemma compress_is_exact_while_small_witness :
  centroids_ (compress two_points)
  ≡ₚ map (fun v => mk_centroid v 1) (buffer_ two_points)
  /\ merged_view (compress two_points) = merged_view two_points
  /\ percentile 0.75 (compress two_points) = percentile 0.75 two_points.
Proof.
  apply (compress_is_exact_while_small 0.75 two_points); reflexivity.
Defined.

End Digest.

(** ** The final statistics *)

Section Totals.

Local Open Scope N_scope.

Lemma total_statistics_mod workers a b c d :
  fold_left
    (fun '(total_recv, total_sent, total_bytes_recv, total_bytes_sent) c =>
       (fetch_add total_recv (packets_received c),
        fetch_add total_sent (packets_sent c),
        fetch_add total_bytes_recv (bytes_received c),
        fetch_add total_bytes_sent (bytes_sent c)))
    workers (a mod 2 ^ 64, b mod 2 ^ 64, c mod 2 ^ 64, d mod 2 ^ 64)
  = ((a + sum_of packets_received workers) mod 2 ^ 64,
     (b + sum_of packets_sent workers) mod 2 ^ 64,
     (c + sum_of bytes_received workers) mod 2 ^ 64,
     (d + sum_of bytes_sent workers) mod 2 ^ 64).
Proof.
  revert a b c d. induction workers as [|x workers IH]; intros a b c d; simpl.
  - by rewrite !N.add_0_r.
  - rewrite !fetch_add_mod, IH. by rewrite !N.add_assoc.
Qed.

Lemma sum_of_le f g workers :
  Forall (fun c => f c <= g c) workers ->
  sum_of f workers <= sum_of g workers.
Proof. induction 1; simpl; lia. Qed.

(** X18. The final statistics add the workers' counters in 64 bits: each
    total is the sum of that counter over the workers modulo 2^64; when every
    worker has sent no more than it received and the received sums fit 64
    bits, all four totals are the exact sums and the totals sent do not
    exceed the totals received. *)
Theorem totals_consistent workers :
  total_statistics workers
  = (sum_of packets_received workers mod 2 ^ 64,
     sum_of packets_sent workers mod 2 ^ 64,
     sum_of bytes_received workers mod 2 ^ 64,
     sum_of bytes_sent workers mod 2 ^ 64)
  /\ (Forall (fun c => packets_sent c <= packets_received c
                       /\ bytes_sent c <= bytes_received c) workers ->
      sum_of packets_received workers < 2 ^ 64 ->
      sum_of bytes_received workers < 2 ^ 64 ->
      exists total_recv total_sent total_bytes_recv total_bytes_sent,
        total_statistics workers
        = (total_recv, total_sent, total_bytes_recv, total_bytes_sent)
        /\ total_recv = sum_of packets_received workers
        /\ total_sent = sum_of packets_sent workers
        /\ total_bytes_recv = sum_of bytes_received workers
        /\ total_bytes_sent = sum_of bytes_sent workers
        /\ total_sent <= total_recv
        /\ total_bytes_sent <= total_bytes_recv).
Proof.
  assert (total_statistics workers
          = (sum_of packets_received workers mod 2 ^ 64,
             sum_of packets_sent workers mod 2 ^ 64,
             sum_of bytes_received workers mod 2 ^ 64,
             sum_of bytes_sent workers mod 2 ^ 64)) as E.
  { unfold total_statistics.
    change (0, 0, 0, 0)
      with (0 mod 2 ^ 64, 0 mod 2 ^ 64, 0 mod 2 ^ 64, 0 mod 2 ^ 64).
    by rewrite total_statistics_mod, !N.add_0_l. }
  split; [exact E|]. intros Hall Hp Hb.
  assert (sum_of packets_sent workers <= sum_of packets_received workers) as Lp.
  { apply sum_of_le. eapply Forall_impl; [exact Hall|]. by intros c [? ?]. }
  assert (sum_of bytes_sent workers <= sum_of bytes_received workers) as Lb.
  { apply sum_of_le. eapply Forall_impl; [exact Hall|]. by intros c [? ?]. }
  rewrite E. rewrite !N.mod_small by lia.
  eexists _, _, _, _. split_and!; try reflexivity; assumption.
Qed.

Lemma totals_consistent_witness :
  exists total_recv total_sent total_bytes_recv total_bytes_sent,
    total_statistics [mk_worker_context 0 7%Z 9%Z 5 4 50 40;
                      mk_worker_context 1 8%Z 10%Z 3 3 30 30]
    = (total_recv, total_sent, total_bytes_recv, total_bytes_sent)
    /\ total_recv = 8 /\ total_sent = 7
    /\ total_bytes_recv = 80 /\ total_bytes_sent = 70
    /\ total_sent <= total_recv
    /\ total_bytes_sent <= total_bytes_recv.
Proof.
  apply (proj2 (totals_consistent [mk_worker_context 0 7%Z 9%Z 5 4 50 40;
                                   mk_worker_context 1 8%Z 10%Z 3 3 30 30])).
  - repeat constructor; simpl; lia.
  - simpl. lia.
  - simpl. lia.
Defined.

End Totals.

(** ** Start-up *)

Section Startup.

Local Open Scope nat_scope.

Lemma hd_drop {A} (d : A) a (l : list A) : hd d (drop a l) = nth a l d.
Proof. revert l. induction a; intros [|x l]; simpl; auto. Qed.

Lemma tl_drop {A} a (l : list A) : tl (drop a l) = drop (S a) l.
Proof. revert l. induction a; intros [|x l]; simpl; auto. Qed.

Lemma post_initial_recvs_trace c oks a n e :
  let e' := post_initial_recvs c (drop a oks) (seq a n) e in
  calls e' = calls e ++ flat_map (initial_post c oks) (seq a n)
  /\ outstanding_recv e'
     = outstanding_recv e ++ List.filter (fun p => nth p oks true) (seq a n)
  /\ outstanding_send e' = outstanding_send e
  /\ completion_queue e' = completion_queue e
  /\ wire e' = wire e.
Proof.
  revert a e. induction n as [|n IH]; intros a e; simpl.
  - by rewrite !app_nil_r.
  - rewrite hd_drop, tl_drop. unfold post_recv, initial_post.
    destruct (nth a oks true) eqn:Hok; simpl.
    + match goal with |- context [post_initial_recvs c _ _ ?e1] =>
        destruct (IH (S a) e1) as (Hc & Hr & Hs & Hq & Hw) end.
      simpl in *. rewrite Hc, Hr, Hs, Hq, Hw, <- !app_assoc. done.
    + match goal with |- context [post_initial_recvs c _ _ ?e1] =>
        destruct (IH (S a) e1) as (Hc & Hr & Hs & Hq & Hw) end.
      simpl in *. rewrite Hc, Hr, Hs, Hq, Hw, <- !app_assoc. done.
Qed.

(** X20. Start-up, whatever the outcomes: the worker logs the result of
    setting its affinity and goes on either way, posts one Recv on each of
    its Recv Contexts in order on its own socket, logs each post that fails
    and goes on, and then logs "Worker started, OUTSTANDING_OPS outstanding
    receives" with the constant, not the number accepted; the Recv requests
    outstanding are the accepted ones, every Send Context is on the
    free-list, the counters are as handed in, and nothing has been sent. *)
Theorem startup_trace OUTSTANDING_OPS fresh c affinity_ok oks :
  let s := worker_start OUTSTANDING_OPS fresh c affinity_ok oks in
  calls (world s)
  = Log (if affinity_ok then affinity_set (processor_id c)
         else affinity_failed (processor_id c))
    :: flat_map (initial_post c oks) (seq 0 OUTSTANDING_OPS)
    ++ [Log (worker_started (processor_id c) OUTSTANDING_OPS)]
  /\ outstanding_recv (world s)
     = List.filter (fun p => nth p oks true) (seq 0 OUTSTANDING_OPS)
  /\ available_send_contexts (wk s) = seq OUTSTANDING_OPS OUTSTANDING_OPS
  /\ ctx (wk s) = c
  /\ entries s = []
  /\ outstanding_send (world s) = []
  /\ completion_queue (world s) = []
  /\ wire (world s) = [].
Proof.
  unfold worker_start, recv_contexts, send_contexts. cbv zeta.
  set (e1 := record_call _ (mk_env _ [] [] [] [] [])).
  pose proof (post_initial_recvs_trace c oks 0 OUTSTANDING_OPS e1) as H.
  cbv zeta in H. change (drop 0 oks) with oks in H.
  destruct H as (Hc & Hr & Hs & Hq & Hw).
  cbn [world wk entries ctx available_send_contexts record_call calls
       outstanding_recv outstanding_send completion_queue wire].
  rewrite Hc, Hr, Hs, Hq, Hw. done.
Qed.

End Startup.

(** ** Witnesses for the round trip and the bucket choice *)

Lemma echo_round_trip_witness :
  exists s',
    run 1 [ev_datagram 0 hello peer 4%Z; ev_dequeue; ev_process true true]
        (worker_start 1 fresh_context cpu0 true [true]) = Some s'
    /\ wire (world s')
       = wire (world (worker_start 1 fresh_context cpu0 true [true]))
           ++ [mk_datagram
                 (socket (ctx (wk (worker_start 1 fresh_context cpu0 true
                                                [true]))))
                 hello peer 4%Z].
Proof.
  apply (echo_round_trip 1 (worker_start 1 fresh_context cpu0 true [true])
           0%nat 0%nat fresh_context hello peer 4%Z true 1%nat);
    try reflexivity.
  - discriminate.
  - simpl. lia.
Defined.

Lemma percentile_returns_stored_value_witness :
  exists i v w,
    TDigest.merged_view two_points !! i = Some (v, w)
    /\ TDigest.percentile 0.75 two_points = TDigest.Value v
    /\ (forall j vj wj,
          (j < i)%nat -> TDigest.merged_view two_points !! j = Some (vj, wj) ->
          PrimFloat.leb
            (0.75 * TDigest.total_weight_ two_points)
            (TDigest.cumulative_before j (TDigest.merged_view two_points) + wj)
          = false)
    /\ (PrimFloat.leb
          (0.75 * TDigest.total_weight_ two_points)
          (TDigest.cumulative_before i (TDigest.merged_view two_points) + w)
        = true
        \/ S i = length (TDigest.merged_view two_points)).
Proof.
  apply (percentile_returns_stored_value 0.75 two_points);
    [reflexivity|reflexivity|].
  intros E. vm_compute in E. discriminate.
Defined.
